(** * Enumerated field pointers (base/cs_field_pointer.cpp)

    A shallow embedding of the field pointer registry of code_saturne:
    [_init_pointers], [cs_field_pointer_ensure_init],
    [cs_field_pointer_destroy_all], [cs_field_pointer_map] and
    [cs_field_pointer_map_indexed], with the C memory model made explicit:
    each slot's [p] either aims at the slot's own inline field [f] or at a
    heap block, the sub-list sizes are [short int] (16-bit, wrapping on
    store), and every array access is bounds-checked, an out-of-range access
    being undefined behaviour. *)

From Stdlib Require Import ZArith Lia String.
From stdpp Require Import base list gmap.

Module FieldPointer.

(** ** Values *)

(** A [cs_field_t *] handle; [0] is [nullptr]. *)
Definition handle := N.
Definition nullptr : handle := 0%N.

(** A heap cell of [cs_field_t *] as read: indeterminate after [CS_MALLOC]
    / [CS_REALLOC] until written. *)
Inductive cell := Undef | Def (h : handle).

(** A heap block of [cs_field_t *]: its number of cells and the cells
    written so far (a cell absent from the map is indeterminate). *)
Record block := mk_block { blk_len : Z; blk_cells : gmap Z handle }.

(** Where the [p] member of a slot points: at the slot's own [f] member
    ([&(_field_pointer[i].f)]), at a heap block, or nowhere (after
    [CS_FREE], which clears the pointer). *)
Inductive sub_ptr := PInline | PHeap (blk : block) | PNull.

(** [struct cs_field_pointer_array_t { cs_field_t *f; cs_field_t **p; }] *)
Record cs_field_pointer_array_t := mk_slot { f : handle; p : sub_ptr }.

(** The file-static variables [_n_pointers], [_field_pointer],
    [_sublist_size] and the global [cs_glob_field_pointers] (which, when
    set, is [_field_pointer] itself; [true] means non-null). *)
Record state := mk_state {
  _n_pointers : Z;
  _field_pointer : option (list cs_field_pointer_array_t);
  _sublist_size : option (list Z);
  cs_glob_field_pointers : bool
}.

(** The program start: every static is zero / [nullptr]. *)
Definition initial_state : state := mk_state 0 None None false.

(** Storing an [int] into a [short int] (16-bit two's complement, modular
    as in C++20). *)
Definition to_short (z : Z) : Z := ((z + 32768) mod 65536 - 32768)%Z.

Definition INT_MAX : Z := 2147483647%Z.

(** ** Outcomes: normal termination, a failed [assert] (fatal), or
    undefined behaviour (an access out of an object's bounds, a null
    dereference, signed overflow). *)

Inductive outcome (A : Type) := Ok (a : A) | Fatal | UB.
Arguments Ok {A} a.
Arguments Fatal {A}.
Arguments UB {A}.

Global Instance outcome_ret : MRet outcome := fun A a => Ok a.
Global Instance outcome_bind : MBind outcome := fun A B k m =>
  match m with Ok a => k a | Fatal => Fatal | UB => UB end.

(** ** Array accesses with their bounds *)

Definition arr_get {A} (l : list A) (i : Z) : outcome A :=
  if (0 <=? i)%Z then
    match l !! Z.to_nat i with Some x => Ok x | None => UB end
  else UB.

Definition arr_set {A} (l : list A) (i : Z) (x : A) : outcome (list A) :=
  if (0 <=? i)%Z && (i <? Z.of_nat (length l))%Z
  then Ok (<[Z.to_nat i := x]> l) else UB.

(** [b[i]] and [b[i] = x] on a heap block. *)
Definition blk_get (b : block) (i : Z) : outcome cell :=
  if (0 <=? i)%Z && (i <? blk_len b)%Z then
    Ok (match blk_cells b !! i with Some h => Def h | None => Undef end)
  else UB.

Definition blk_set (b : block) (i : Z) (x : handle) : outcome block :=
  if (0 <=? i)%Z && (i <? blk_len b)%Z
  then Ok (mk_block (blk_len b) (<[i := x]> (blk_cells b))) else UB.

(** [s.p[i]]: through the inline alias, only [i = 0] is in bounds. *)
Definition p_get (s : cs_field_pointer_array_t) (i : Z) : outcome cell :=
  match p s with
  | PInline => if (i =? 0)%Z then Ok (Def (f s)) else UB
  | PHeap b => blk_get b i
  | PNull => UB
  end.

(** [s.p[i] = x]: through the inline alias this writes [s.f]. *)
Definition p_set (s : cs_field_pointer_array_t) (i : Z) (x : handle)
  : outcome cs_field_pointer_array_t :=
  match p s with
  | PInline => if (i =? 0)%Z then Ok (mk_slot x PInline) else UB
  | PHeap b => b' ← blk_set b i x; Ok (mk_slot (f s) (PHeap b'))
  | PNull => UB
  end.

(** [CS_MALLOC(q, n, ...)]: [n] indeterminate cells. *)
Definition malloc_blk (n : Z) : block := mk_block n ∅.

(** [CS_REALLOC(q, n, ...)]: keeps the cells below [n], new cells are
    indeterminate. *)
Definition realloc_blk (b : block) (n : Z) : block :=
  mk_block n (filter (fun kv => (kv.1 < n)%Z) (blk_cells b)).

Section Registry.

(** [CS_FIELD_N_POINTERS], the number of enumerators (a positive count). *)
Variable CS_FIELD_N_POINTERS : positive.

(** ** [_init_pointers] *)

(** The loop [for (int i = 0; i < _n_pointers; i++)] of [_init_pointers],
    run over the first [k] indices. *)
Fixpoint init_loop (k : nat) : list cs_field_pointer_array_t * list Z :=
  match k with
  | O => ([], [])
  | S k' =>
      let '(fp, ss) := init_loop k' in
      (fp ++ [mk_slot nullptr PInline], ss ++ [0%Z])
  end.

Definition _init_pointers (st : state) : outcome state :=
  match _field_pointer st with
  | Some _ => Fatal                                   (* assert *)
  | None =>
      let n := Z.pos CS_FIELD_N_POINTERS in
      let '(fp, ss) := init_loop (Z.to_nat n) in
      Ok (mk_state n (Some fp) (Some ss) true)
  end.

Definition cs_field_pointer_ensure_init (st : state) : outcome state :=
  match _field_pointer st with
  | None => _init_pointers st
  | Some _ => Ok st
  end.

(** ** [cs_field_pointer_destroy_all] *)

(** Modelled from the spec: [CS_FREE] (base/cs_mem.h, not in these
    sources) releases a block and resets the freed pointer variable to
    [nullptr], so that, as the spec states, after [destroy_all] the
    registry is unset and [ensure_init] initialises it again. *)
Definition CS_FREE {A} (q : option A) : option A := None.

(** [CS_FREE(_field_pointer[i].p)] when [_sublist_size[i] > 1], for the
    indices [i, i+1, ..., i+k-1]. *)
Fixpoint destroy_loop (i : Z) (k : nat)
    (fp : option (list cs_field_pointer_array_t)) (ss : option (list Z))
  : outcome (option (list cs_field_pointer_array_t)) :=
  match k with
  | O => Ok fp
  | S k' =>
      match ss with
      | None => UB
      | Some ss' =>
          sz ← arr_get ss' i;
          if (1 <? sz)%Z then
            match fp with
            | None => UB
            | Some fp' =>
                sl ← arr_get fp' i;
                fp'' ← arr_set fp' i (mk_slot (f sl) PNull);
                destroy_loop (i + 1) k' (Some fp'') ss
            end
          else destroy_loop (i + 1) k' fp ss
      end
  end.

Definition cs_field_pointer_destroy_all (st : state) : outcome state :=
  _ ← destroy_loop 0 (Z.to_nat (_n_pointers st))
                    (_field_pointer st) (_sublist_size st);
  Ok (mk_state (_n_pointers st) (CS_FREE (_field_pointer st))
               (CS_FREE (_sublist_size st)) false).

(** ** [cs_field_pointer_map_indexed] *)

(** The loop [for (int i = _sublist_size[e]; i < n_sub; i++)
    _field_pointer[e].p[i] = nullptr;], [k] iterations from [i]. *)
Fixpoint null_fill (i : Z) (k : nat) (s : cs_field_pointer_array_t)
  : outcome cs_field_pointer_array_t :=
  match k with
  | O => Ok s
  | S k' => s' ← p_set s i nullptr; null_fill (i + 1) k' s'
  end.

(** The growth block [if (_sublist_size[e] <= index) { ... }]: returns the
    new slot and the new [_sublist_size[e]]. *)
Definition grow (s : cs_field_pointer_array_t) (sz index : Z)
  : outcome (cs_field_pointer_array_t * Z) :=
  if (INT_MAX <? index + 1)%Z then UB else          (* int n_sub = index+1 *)
  let n_sub := (index + 1)%Z in
  let p1 := match p s with
            | PInline => PHeap (malloc_blk n_sub)          (* CS_MALLOC *)
            | PHeap b => PHeap (realloc_blk b n_sub)       (* CS_REALLOC *)
            | PNull => PHeap (malloc_blk n_sub)            (* of nullptr *)
            end in
  s1 ← p_set (mk_slot (f s) p1) 0 (f s);              (* p[0] = f *)
  s2 ← null_fill sz (Z.to_nat (n_sub - sz)) s1;
  Ok (s2, to_short n_sub).

Definition cs_field_pointer_map_indexed (e : nat) (index : Z) (x : handle)
    (st0 : state) : outcome state :=
  if (index <? 0)%Z then Fatal else                   (* assert(index >= 0) *)
  st ← cs_field_pointer_ensure_init st0;
  if negb (Z.of_nat e <? _n_pointers st)%Z then Fatal else  (* assert *)
  match _field_pointer st, _sublist_size st with
  | Some fp, Some ss =>
      s ← arr_get fp (Z.of_nat e);
      sz ← arr_get ss (Z.of_nat e);
      if (index =? 0)%Z && (sz <=? 1)%Z then
        fp' ← arr_set fp (Z.of_nat e) (mk_slot x (p s));
        ss' ← arr_set ss (Z.of_nat e) 1%Z;
        Ok (mk_state (_n_pointers st) (Some fp') (Some ss')
                     (cs_glob_field_pointers st))
      else
        g ← (if (sz <=? index)%Z then grow s sz index else Ok (s, sz));
        s' ← p_set g.1 index x;
        fp' ← arr_set fp (Z.of_nat e) s';
        ss' ← arr_set ss (Z.of_nat e) g.2;
        Ok (mk_state (_n_pointers st) (Some fp') (Some ss')
                     (cs_glob_field_pointers st))
  | _, _ => UB
  end.

Definition cs_field_pointer_map (e : nat) (x : handle) (st : state)
  : outcome state :=
  cs_field_pointer_map_indexed e 0 x st.

(** ** Reading the registry *)

(** Modelled from the spec: the macro [CS_FI_(e, i)] of
    base/cs_field_pointer.h (not part of these sources), documented above
    the definitions of cs_field_pointer.cpp as an access to the global array
    [cs_glob_field_pointers] by enumerator and sub-list index, that is
    [cs_glob_field_pointers[e].p[i]]; the direct lookup is sub-index 0. *)
Definition cs_field_pointer_lookup (st : state) (e : nat) (i : Z)
  : outcome cell :=
  if cs_glob_field_pointers st then
    match _field_pointer st with
    | Some fp => s ← arr_get fp (Z.of_nat e); p_get s i
    | None => UB
    end
  else UB.

(** ** Sequences of calls *)

Inductive op :=
  | OpEnsureInit
  | OpDestroyAll
  | OpMap (e : nat) (x : handle)
  | OpMapIndexed (e : nat) (index : Z) (x : handle).

Definition step (o : op) (st : state) : outcome state :=
  match o with
  | OpEnsureInit => cs_field_pointer_ensure_init st
  | OpDestroyAll => cs_field_pointer_destroy_all st
  | OpMap e x => cs_field_pointer_map e x st
  | OpMapIndexed e i x => cs_field_pointer_map_indexed e i x st
  end.

Fixpoint run (os : list op) (st : state) : outcome state :=
  match os with
  | [] => Ok st
  | o :: os' => st' ← step o st; run os' st'
  end.

(** The states a program reaches from the start by calls that return. *)
Inductive reachable : state -> Prop :=
  | reachable_initial : reachable initial_state
  | reachable_step o st st' :
      reachable st -> step o st = Ok st' -> reachable st'.

(** ** Registry invariant *)

(** Slot [e] of a state with its [_sublist_size[e]]. *)
Definition slot_at (st : state) (e : nat) : option (cs_field_pointer_array_t * Z) :=
  match _field_pointer st, _sublist_size st with
  | Some fp, Some ss =>
      match fp !! e, ss !! e with
      | Some s, Some sz => Some (s, sz)
      | _, _ => None
      end
  | _, _ => None
  end.

(** What a caller can observe of slot [e]: the inline [f], the stored
    [_sublist_size[e]], and the length of the heap block [p] aims at
    ([None] while [p] aims at [f]). *)
Definition slot_shape (st : state) (e : nat) : option (handle * Z * option Z) :=
  match slot_at st e with
  | Some (s, sz) =>
      Some (f s, sz, match p s with PHeap b => Some (blk_len b) | _ => None end)
  | None => None
  end.

(** A slot whose size exceeds one owns a heap block that holds at least
    [sz] cells. *)
Definition slot_ok (s : cs_field_pointer_array_t) (sz : Z) : Prop :=
  (1 < sz)%Z -> exists b, p s = PHeap b /\ (sz <= blk_len b)%Z.

Definition registry_inv (st : state) : Prop :=
  match _field_pointer st, _sublist_size st with
  | None, None => True
  | Some fp, Some ss =>
      _n_pointers st = Z.pos CS_FIELD_N_POINTERS /\
      length fp = Pos.to_nat CS_FIELD_N_POINTERS /\
      length ss = Pos.to_nat CS_FIELD_N_POINTERS /\
      Forall2 slot_ok fp ss
  | _, _ => False
  end.

End Registry.

(** ** One slot of [cs_field_pointer_map_indexed] *)

(** The body of [cs_field_pointer_map_indexed] from the test
    [index == 0 && _sublist_size[e] <= 1] on, acting on the slot [s] of
    size [sz]: the new slot and the new [_sublist_size[e]]. *)
Definition slot_map_indexed (s : cs_field_pointer_array_t) (sz index : Z)
    (x : handle) : outcome (cs_field_pointer_array_t * Z) :=
  if (index =? 0)%Z && (sz <=? 1)%Z then Ok (mk_slot x (p s), 1%Z)
  else
    g ← (if (sz <=? index)%Z then grow s sz index else Ok (s, sz));
    s' ← p_set g.1 index x;
    Ok (s', g.2).

(** The size tag of a slot agrees with its representation: sizes 0 and 1
    use the inline [f], sizes from 2 to the [short] maximum own a heap block
    of exactly that many cells. *)
Definition slot_tag_ok (s : cs_field_pointer_array_t) (sz : Z) : Prop :=
  ((0 <= sz <= 1)%Z /\ p s = PInline) \/
  ((2 <= sz <= 32767)%Z /\ exists b, p s = PHeap b /\ blk_len b = sz).

Section Bounded.

Variable CS_FIELD_N_POINTERS : positive.

(** A call whose sub-list index stays below the [short] limit
    ([index + 1 <= 32767]). *)
Definition op_index_bounded (o : op) : Prop :=
  match o with
  | OpMapIndexed _ index _ => (index <= 32766)%Z
  | _ => True
  end.

(** The states reached from the start by returning calls whose indices
    all stay below the [short] limit. *)
Inductive reachable_bounded : state -> Prop :=
  | reachable_bounded_initial : reachable_bounded initial_state
  | reachable_bounded_step o st st' :
      reachable_bounded st -> op_index_bounded o ->
      step CS_FIELD_N_POINTERS o st = Ok st' -> reachable_bounded st'.

Definition registry_tag_inv (st : state) : Prop :=
  match _field_pointer st, _sublist_size st with
  | None, None => True
  | Some fp, Some ss =>
      _n_pointers st = Z.pos CS_FIELD_N_POINTERS /\
      length fp = Pos.to_nat CS_FIELD_N_POINTERS /\
      length ss = Pos.to_nat CS_FIELD_N_POINTERS /\
      cs_glob_field_pointers st = true /\
      Forall2 slot_tag_ok fp ss
  | _, _ => False
  end.

End Bounded.

(** ** Domain mapping helpers *)

Section Mapping.

Variable CS_FIELD_N_POINTERS : positive.

(** [cs_field_by_name_try] and [cs_field_by_id] (base/cs_field.h), the
    field subsystem's lookups, taken as arbitrary functions. *)
Variable cs_field_by_name_try : string -> handle.
Variable cs_field_by_id : Z -> handle.

(** [CS_ENUMF_(e)]: the enumerator of suffix [e]. *)
Variable CS_ENUMF_ : string -> nat.

Definition cs_field_pointer_map_base (st : state) : outcome state :=
  st ← cs_field_pointer_map CS_FIELD_N_POINTERS (CS_ENUMF_ "dt")
         (cs_field_by_name_try "dt") st;
  st ← cs_field_pointer_map CS_FIELD_N_POINTERS (CS_ENUMF_ "hybrid_blend")
         (cs_field_by_name_try "hybrid_blend") st;
  st ← cs_field_pointer_map CS_FIELD_N_POINTERS (CS_ENUMF_ "h")
         (cs_field_by_name_try "enthalpy") st;
  st ← cs_field_pointer_map CS_FIELD_N_POINTERS (CS_ENUMF_ "t")
         (cs_field_by_name_try "temperature") st;
  st ← cs_field_pointer_map CS_FIELD_N_POINTERS (CS_ENUMF_ "cp")
         (cs_field_by_name_try "specific_heat") st;
  st ← cs_field_pointer_map CS_FIELD_N_POINTERS (CS_ENUMF_ "lambda")
         (cs_field_by_name_try "thermal_conductivity") st;
  st ← cs_field_pointer_map CS_FIELD_N_POINTERS (CS_ENUMF_ "th_diff")
         (cs_field_by_name_try "thermal_diffusivity") st;
  st ← cs_field_pointer_map CS_FIELD_N_POINTERS (CS_ENUMF_ "vism")
         (cs_field_by_name_try "mesh_viscosity") st;
  st ← cs_field_pointer_map CS_FIELD_N_POINTERS (CS_ENUMF_ "poro")
         (cs_field_by_name_try "porosity") st;
  cs_field_pointer_map CS_FIELD_N_POINTERS (CS_ENUMF_ "t_poro")
    (cs_field_by_name_try "tensorial_porosity") st.

Definition cs_field_pointer_map_boundary (st : state) : outcome state :=
  cs_field_pointer_map CS_FIELD_N_POINTERS (CS_ENUMF_ "t_b")
    (cs_field_by_name_try "boundary_temperature") st.

(** The loop [for (int i = 0; i < n_chem_species; i++)
    cs_field_pointer_map_indexed(CS_ENUMF_(chemistry), i,
    cs_field_by_id(species_f_id[i]));], [k] iterations from [i]. *)
Fixpoint atmo_species_loop (i : Z) (k : nat) (species_f_id : list Z)
    (st : state) : outcome state :=
  match k with
  | O => Ok st
  | S k' =>
      id ← arr_get species_f_id i;
      st' ← cs_field_pointer_map_indexed CS_FIELD_N_POINTERS
              (CS_ENUMF_ "chemistry") i (cs_field_by_id id) st;
      atmo_species_loop (i + 1) k' species_f_id st'
  end.

Definition cs_field_pointer_map_atmospheric (n_chem_species : Z)
    (species_f_id : list Z) (st : state) : outcome state :=
  st ← cs_field_pointer_map CS_FIELD_N_POINTERS (CS_ENUMF_ "pot_t")
         (cs_field_by_name_try "temperature") st;
  st ← cs_field_pointer_map CS_FIELD_N_POINTERS (CS_ENUMF_ "ym_w")
         (cs_field_by_name_try "ym_water") st;
  st ← cs_field_pointer_map CS_FIELD_N_POINTERS (CS_ENUMF_ "ntdrp")
         (cs_field_by_name_try "number_of_droplets") st;
  atmo_species_loop 0 (Z.to_nat n_chem_species) species_f_id st.

(** A run of [cs_field_pointer_map] calls, one per (enumerator, field)
    pair, in order. *)
Fixpoint map_list (l : list (nat * handle)) (st : state) : outcome state :=
  match l with
  | [] => Ok st
  | (e, x) :: l' =>
      st' ← cs_field_pointer_map CS_FIELD_N_POINTERS e x st; map_list l' st'
  end.

(** The calls of [cs_field_pointer_map_base], in the order of the source. *)
Definition map_base_list : list (nat * handle) :=
  [(CS_ENUMF_ "dt", cs_field_by_name_try "dt");
   (CS_ENUMF_ "hybrid_blend", cs_field_by_name_try "hybrid_blend");
   (CS_ENUMF_ "h", cs_field_by_name_try "enthalpy");
   (CS_ENUMF_ "t", cs_field_by_name_try "temperature");
   (CS_ENUMF_ "cp", cs_field_by_name_try "specific_heat");
   (CS_ENUMF_ "lambda", cs_field_by_name_try "thermal_conductivity");
   (CS_ENUMF_ "th_diff", cs_field_by_name_try "thermal_diffusivity");
   (CS_ENUMF_ "vism", cs_field_by_name_try "mesh_viscosity");
   (CS_ENUMF_ "poro", cs_field_by_name_try "porosity");
   (CS_ENUMF_ "t_poro", cs_field_by_name_try "tensorial_porosity")].

(** The three direct calls at the head of [cs_field_pointer_map_atmospheric]. *)
Definition map_atmospheric_list : list (nat * handle) :=
  [(CS_ENUMF_ "pot_t", cs_field_by_name_try "temperature");
   (CS_ENUMF_ "ym_w", cs_field_by_name_try "ym_water");
   (CS_ENUMF_ "ntdrp", cs_field_by_name_try "number_of_droplets")].

End Mapping.

Section Proofs.

Variable n_enum : positive.

Lemma init_loop_repeat k :
  init_loop k = (repeat (mk_slot nullptr PInline) k, repeat 0%Z k).
Proof.
  induction k as [|k IH]; [reflexivity|].
  cbn [init_loop]. rewrite IH. by rewrite <- !repeat_cons.
Qed.

Lemma ensure_init_eq (st : state) :
  cs_field_pointer_ensure_init n_enum st =
    match _field_pointer st with
    | None =>
        Ok (mk_state (Z.pos n_enum)
              (Some (repeat (mk_slot nullptr PInline) (Pos.to_nat n_enum)))
              (Some (repeat 0%Z (Pos.to_nat n_enum))) true)
    | Some _ => Ok st
    end.
Proof.
  unfold cs_field_pointer_ensure_init, _init_pointers.
  rewrite Z2Nat.inj_pos, init_loop_repeat.
  destruct (_field_pointer st) eqn:Hfp; reflexivity.
Qed.

(** C6: [cs_field_pointer_ensure_init] is idempotent; on a state whose
    [_field_pointer] is null it allocates [CS_FIELD_N_POINTERS] slots, each
    with a null [f] aimed at by [p], and as many sub-list sizes, all 0, and
    publishes the array; otherwise it leaves the state unchanged. *)
Theorem ensure_init_idempotent (st : state) :
  (cs_field_pointer_ensure_init n_enum st
     ≫= cs_field_pointer_ensure_init n_enum)
    = cs_field_pointer_ensure_init n_enum st /\
  cs_field_pointer_ensure_init n_enum st =
    match _field_pointer st with
    | None =>
        Ok (mk_state (Z.pos n_enum)
              (Some (repeat (mk_slot nullptr PInline) (Pos.to_nat n_enum)))
              (Some (repeat 0%Z (Pos.to_nat n_enum))) true)
    | Some _ => Ok st
    end.
Proof.
  unfold cs_field_pointer_ensure_init, _init_pointers.
  rewrite Z2Nat.inj_pos, init_loop_repeat.
  destruct (_field_pointer st) eqn:Hfp; simpl; [rewrite Hfp|]; split; reflexivity.
Qed.

(** ** The outcome monad and bounded accesses *)

Lemma bind_Ok {A B} (m : outcome A) (k : A -> outcome B) (b : B) :
  (m ≫= k) = Ok b -> exists a, m = Ok a /\ k a = Ok b.
Proof. destruct m; cbn; [eauto|discriminate|discriminate]. Qed.

Lemma bind_Ok_l {A B} (a : A) (k : A -> outcome B) : (Ok a ≫= k) = k a.
Proof. reflexivity. Qed.

Ltac unbind H :=
  let a := fresh "a" in
  let Hm := fresh "Hm" in
  apply bind_Ok in H as [a [Hm H]].

Lemma arr_get_Ok {A} (l : list A) i x :
  arr_get l i = Ok x -> (0 <= i)%Z /\ l !! Z.to_nat i = Some x.
Proof.
  unfold arr_get. destruct (0 <=? i)%Z eqn:Hi; [|discriminate].
  destruct (l !! Z.to_nat i) eqn:Hl; intros H; inversion H; subst.
  split; [lia|done].
Qed.

Lemma arr_set_Ok {A} (l : list A) i x l' :
  arr_set l i x = Ok l' ->
  (0 <= i < Z.of_nat (length l))%Z /\ l' = <[Z.to_nat i := x]> l.
Proof.
  unfold arr_set. destruct (0 <=? i)%Z eqn:H1, (i <? Z.of_nat (length l))%Z eqn:H2;
    cbn; intros H; inversion H; subst; split; [lia|done].
Qed.

Lemma arr_set_in_bounds {A} (l : list A) i x :
  (0 <= i < Z.of_nat (length l))%Z -> arr_set l i x = Ok (<[Z.to_nat i := x]> l).
Proof.
  intros Hi. unfold arr_set.
  replace (0 <=? i)%Z with true by lia.
  replace (i <? Z.of_nat (length l))%Z with true by lia. done.
Qed.

Lemma arr_get_in_bounds {A} (l : list A) i x :
  (0 <= i)%Z -> l !! Z.to_nat i = Some x -> arr_get l i = Ok x.
Proof.
  intros Hi Hl. unfold arr_get. replace (0 <=? i)%Z with true by lia.
  by rewrite Hl.
Qed.

Lemma blk_set_Ok b i x b' :
  blk_set b i x = Ok b' ->
  (0 <= i < blk_len b)%Z /\ b' = mk_block (blk_len b) (<[i := x]> (blk_cells b)).
Proof.
  unfold blk_set. destruct (0 <=? i)%Z eqn:H1, (i <? blk_len b)%Z eqn:H2;
    cbn; intros H; inversion H; subst; split; [lia|done].
Qed.

Lemma blk_set_in_bounds b i x :
  (0 <= i < blk_len b)%Z ->
  blk_set b i x = Ok (mk_block (blk_len b) (<[i := x]> (blk_cells b))).
Proof.
  intros Hi. unfold blk_set.
  replace (0 <=? i)%Z with true by lia.
  replace (i <? blk_len b)%Z with true by lia. done.
Qed.

(** Writing through a heap [p] keeps it a heap block of the same length. *)
Lemma p_set_heap s i x s' b :
  p s = PHeap b -> p_set s i x = Ok s' ->
  exists b', p s' = PHeap b' /\ blk_len b' = blk_len b.
Proof.
  intros Hp H. unfold p_set in H. rewrite Hp in H. unbind H.
  apply blk_set_Ok in Hm as [_ ->]. inversion H; subst. cbn.
  eexists; split; reflexivity.
Qed.

Lemma null_fill_heap k : forall i s s' b,
  p s = PHeap b -> null_fill i k s = Ok s' ->
  exists b', p s' = PHeap b' /\ blk_len b' = blk_len b.
Proof.
  induction k as [|k IH]; intros i s s' b Hp H; cbn in H.
  - inversion H; subst. eauto.
  - unbind H. destruct (p_set_heap _ _ _ _ _ Hp Hm) as (b1 & Hb1 & Hl1).
    destruct (IH _ _ _ _ Hb1 H) as (b2 & Hb2 & Hl2). eauto with lia.
Qed.

Lemma to_short_le z : (0 <= z)%Z -> (to_short z <= z)%Z.
Proof.
  intros Hz. unfold to_short.
  pose proof (Z.mod_le (z + 32768) 65536). lia.
Qed.

(** After growth the slot owns a heap block of [index + 1] cells, at least
    the stored ([short]) size. *)
Lemma grow_heap s sz index s' sz' :
  (0 <= index)%Z -> grow s sz index = Ok (s', sz') ->
  sz' = to_short (index + 1) /\
  exists b, p s' = PHeap b /\ blk_len b = (index + 1)%Z /\ (sz' <= blk_len b)%Z.
Proof.
  intros Hi H. unfold grow in H.
  destruct (INT_MAX <? index + 1)%Z; [discriminate|].
  unbind H. unbind H. inversion H; subst; clear H.
  set (p1 := match p s with
             | PInline => PHeap (malloc_blk (index + 1))
             | PHeap b => PHeap (realloc_blk b (index + 1))
             | PNull => PHeap (malloc_blk (index + 1))
             end) in *.
  assert (Hp1 : exists b, p1 = PHeap b /\ blk_len b = (index + 1)%Z)
    by (subst p1; destruct (p s); eexists; split; reflexivity).
  destruct Hp1 as (b0 & Hb0 & Hl0).
  destruct (p_set_heap (mk_slot (f s) p1) 0 (f s) a b0 Hb0 Hm) as (b1 & Hb1 & Hl1).
  destruct (null_fill_heap _ _ _ _ _ Hb1 Hm0) as (b2 & Hb2 & Hl2).
  split; [reflexivity|]. exists b2. split; [done|]. split; [lia|].
  pose proof (to_short_le (index + 1)). lia.
Qed.

Lemma Forall2_slot_ok_fresh k :
  Forall2 slot_ok (repeat (mk_slot nullptr PInline) k) (repeat 0%Z k).
Proof.
  induction k; constructor; [unfold slot_ok; lia|done].
Qed.

Lemma ensure_init_inv st st' :
  registry_inv n_enum st -> cs_field_pointer_ensure_init n_enum st = Ok st' ->
  registry_inv n_enum st'.
Proof.
  intros Hinv H.
  rewrite ensure_init_eq in H.
  destruct (_field_pointer st) eqn:Hfp; inversion H; subst; [done|].
  unfold registry_inv; cbn. rewrite !repeat_length.
  split; [done|split; [done|split; [done|apply Forall2_slot_ok_fresh]]].
Qed.

Lemma map_indexed_inv e index x st0 st' :
  registry_inv n_enum st0 ->
  cs_field_pointer_map_indexed n_enum e index x st0 = Ok st' ->
  registry_inv n_enum st'.
Proof.
  intros Hinv0 H. unfold cs_field_pointer_map_indexed in H.
  destruct (index <? 0)%Z eqn:Hneg; [discriminate|]. apply Z.ltb_ge in Hneg.
  unbind H. rename a into st. pose proof (ensure_init_inv _ _ Hinv0 Hm) as Hinv.
  destruct (negb (Z.of_nat e <? _n_pointers st)%Z); [discriminate|].
  unfold registry_inv in Hinv.
  destruct (_field_pointer st) as [fp|], (_sublist_size st) as [ss|];
    try discriminate; try contradiction.
  destruct Hinv as (Hn & Hlf & Hls & Hall).
  unbind H. rename a into s, Hm0 into Hs. unbind H. rename a into sz, Hm0 into Hsz.
  apply arr_get_Ok in Hs as [_ Hs]. apply arr_get_Ok in Hsz as [_ Hsz].
  pose proof (Forall2_lookup_lr _ _ _ _ _ _ Hall Hs Hsz) as Hok.
  destruct ((index =? 0)%Z && (sz <=? 1)%Z) eqn:Hdir.
  - unbind H. apply arr_set_Ok in Hm0 as [_ ->].
    unbind H. apply arr_set_Ok in Hm0 as [_ ->].
    inversion H; subst. unfold registry_inv; cbn.
    rewrite !length_insert. split; [done|split; [done|split; [done|]]].
    apply Forall2_insert; [done|unfold slot_ok; lia].
  - unbind H. rename a into g.
    assert (Hg : (1 < g.2)%Z ->
                 exists b, p g.1 = PHeap b /\ (g.2 <= blk_len b)%Z).
    { destruct (sz <=? index)%Z eqn:Hle.
      - destruct g as [s1 z1]. intros _.
        destruct (grow_heap s sz index s1 z1 Hneg Hm0) as (_ & b & Hb & _ & Hz).
        exists b. auto.
      - inversion Hm0; subst. exact Hok. }
    unbind H. rename a into s', Hm1 into Hs'.
    unbind H. apply arr_set_Ok in Hm1 as [_ ->].
    unbind H. apply arr_set_Ok in Hm1 as [_ ->].
    inversion H; subst. unfold registry_inv; cbn.
    rewrite !length_insert. split; [done|split; [done|split; [done|]]].
    apply Forall2_insert; [done|]. intros Hlt.
    destruct (Hg Hlt) as (b & Hb & Hz).
    destruct (p_set_heap _ _ _ _ _ Hb Hs') as (b' & Hb' & Hl').
    exists b'. split; [done|lia].
Qed.

Lemma destroy_all_inv st st' :
  cs_field_pointer_destroy_all st = Ok st' -> registry_inv n_enum st'.
Proof.
  unfold cs_field_pointer_destroy_all. intros H. unbind H.
  inversion H; subst. done.
Qed.

Lemma initial_inv : registry_inv n_enum initial_state.
Proof. done. Qed.

Lemma step_inv o st st' :
  registry_inv n_enum st -> step n_enum o st = Ok st' -> registry_inv n_enum st'.
Proof.
  destruct o; cbn [step]; intros Hinv H.
  - exact (ensure_init_inv _ _ Hinv H).
  - exact (destroy_all_inv _ _ H).
  - exact (map_indexed_inv _ _ _ _ _ Hinv H).
  - exact (map_indexed_inv _ _ _ _ _ Hinv H).
Qed.

Lemma reachable_inv st : reachable n_enum st -> registry_inv n_enum st.
Proof.
  induction 1 as [|o st st' _ IH Hstep].
  - apply initial_inv.
  - exact (step_inv _ _ _ IH Hstep).
Qed.

Lemma ensure_init_Ok st :
  registry_inv n_enum st ->
  exists st1, cs_field_pointer_ensure_init n_enum st = Ok st1 /\
              _field_pointer st1 <> None /\ registry_inv n_enum st1.
Proof.
  intros Hinv. rewrite ensure_init_eq.
  destruct (_field_pointer st) eqn:Hfp.
  - exists st. rewrite Hfp. split; [done|split; [done|exact Hinv]].
  - eexists; split; [reflexivity|split; [done|]].
    eapply ensure_init_inv; [exact Hinv|].
    rewrite ensure_init_eq, Hfp. reflexivity.
Qed.

Lemma inv_slot st e :
  registry_inv n_enum st -> _field_pointer st <> None ->
  (e < Pos.to_nat n_enum)%nat ->
  exists fp ss s sz,
    _field_pointer st = Some fp /\ _sublist_size st = Some ss /\
    fp !! e = Some s /\ ss !! e = Some sz /\ slot_ok s sz /\
    _n_pointers st = Z.pos n_enum /\
    length fp = Pos.to_nat n_enum /\ length ss = Pos.to_nat n_enum.
Proof.
  intros Hinv Hfp He. unfold registry_inv in Hinv.
  destruct (_field_pointer st) as [fp|], (_sublist_size st) as [ss|];
    try contradiction.
  destruct Hinv as (Hn & Hlf & Hls & Hall).
  destruct (lookup_lt_is_Some_2 fp e ltac:(lia)) as [s Hs].
  destruct (lookup_lt_is_Some_2 ss e ltac:(lia)) as [sz Hsz].
  exists fp, ss, s, sz. repeat split; try done.
  exact (Forall2_lookup_lr _ _ _ _ _ _ Hall Hs Hsz).
Qed.

Lemma slot_at_insert n g fp ss e j s z :
  (e < length fp)%nat -> (e < length ss)%nat ->
  slot_at (mk_state n (Some (<[e:=s]> fp)) (Some (<[e:=z]> ss)) g) j =
  if decide (j = e) then Some (s, z)
  else slot_at (mk_state n (Some fp) (Some ss) g) j.
Proof.
  intros Hf Hs. unfold slot_at; cbn.
  destruct (decide (j = e)) as [->|Hne].
  - by rewrite !list_lookup_insert_eq.
  - rewrite !list_lookup_insert_ne by congruence. done.
Qed.

Lemma slot_at_fields st n g fp ss j :
  _field_pointer st = Some fp -> _sublist_size st = Some ss ->
  slot_at (mk_state n (Some fp) (Some ss) g) j = slot_at st j.
Proof. intros Hf Hs. unfold slot_at. by rewrite Hf, Hs. Qed.

(** C2 (amended): on any reachable state and any enumerator [e] below the
    count, [cs_field_pointer_map e x] succeeds; when slot [e] (after the
    lazy initialisation) has [_sublist_size[e] <= 1] it stores [x] in the
    inline field [f] and sets [_sublist_size[e]] to 1, leaving [p] as it
    was; when the slot is expanded ([_sublist_size[e] > 1]) it writes [x]
    at position 0 of the heap array and leaves [f] and [_sublist_size[e]]
    unchanged. Every other slot is left unchanged. *)
Theorem map_sets_direct_or_position0 (e : nat) (x : handle) (st : state)
  (Hreach : reachable n_enum st) (He : (e < Pos.to_nat n_enum)%nat) :
  exists st1 st' s sz,
    cs_field_pointer_ensure_init n_enum st = Ok st1 /\
    slot_at st1 e = Some (s, sz) /\
    cs_field_pointer_map n_enum e x st = Ok st' /\
    (forall j, j <> e -> slot_at st' j = slot_at st1 j) /\
    (if (sz <=? 1)%Z
     then slot_at st' e = Some (mk_slot x (p s), 1%Z)
     else exists b, p s = PHeap b /\
            slot_at st' e =
              Some (mk_slot (f s)
                      (PHeap (mk_block (blk_len b) (<[0%Z := x]> (blk_cells b)))), sz)).
Proof.
  pose proof (reachable_inv _ Hreach) as Hinv.
  destruct (ensure_init_Ok _ Hinv) as (st1 & Hst1 & Hfp1 & Hinv1).
  destruct (inv_slot _ e Hinv1 Hfp1 He)
    as (fp & ss & s & sz & Hfp & Hss & Hs & Hsz & Hok & Hn & Hlf & Hls).
  assert (Hgf : arr_get fp (Z.of_nat e) = Ok s)
    by (apply arr_get_in_bounds; [lia|by rewrite Nat2Z.id]).
  assert (Hgs : arr_get ss (Z.of_nat e) = Ok sz)
    by (apply arr_get_in_bounds; [lia|by rewrite Nat2Z.id]).
  assert (Hslot1 : slot_at st1 e = Some (s, sz))
    by (unfold slot_at; by rewrite Hfp, Hss, Hs, Hsz).
  unfold cs_field_pointer_map, cs_field_pointer_map_indexed.
  change (0 <? 0)%Z with false. cbv iota.
  rewrite Hst1, bind_Ok_l, Hn.
  replace (Z.of_nat e <? Z.pos n_enum)%Z with true by lia. cbn [negb].
  rewrite Hfp, Hss, Hgf, bind_Ok_l, Hgs, bind_Ok_l.
  change (0 =? 0)%Z with true. cbn [andb].
  destruct (sz <=? 1)%Z eqn:Hle.
  - rewrite !arr_set_in_bounds by lia. cbn [mbind outcome_bind].
    eexists st1, _, s, sz. rewrite Hle.
    split; [done|split; [done|split; [reflexivity|]]].
    split.
    + intros j Hj. rewrite slot_at_insert by lia.
      rewrite Nat2Z.id. destruct (decide (j = e)); [done|].
      by apply slot_at_fields.
    + rewrite slot_at_insert by lia. rewrite Nat2Z.id.
      destruct (decide (e = e)); [done|congruence].
  - assert (Hgt : (1 < sz)%Z) by lia.
    destruct (Hok Hgt) as (b & Hb & Hlb).
    replace (sz <=? 0)%Z with false by lia. rewrite bind_Ok_l. cbn [fst snd].
    unfold p_set at 1. rewrite Hb, (blk_set_in_bounds b 0 x) by lia.
    cbn [mbind outcome_bind].
    rewrite !arr_set_in_bounds by (rewrite ?length_insert; lia).
    cbn [mbind outcome_bind].
    eexists st1, _, s, sz. rewrite Hle.
    split; [done|split; [done|split; [reflexivity|]]].
    split.
    + intros j Hj. rewrite slot_at_insert by lia.
      rewrite Nat2Z.id. destruct (decide (j = e)); [done|].
      by apply slot_at_fields.
    + exists b. split; [done|]. rewrite slot_at_insert by lia.
      rewrite Nat2Z.id. by rewrite decide_True.
Qed.

Lemma destroy_loop_Ok k : forall i fp ss,
  (0 <= i)%Z -> (Z.to_nat i + k <= length ss)%nat -> length fp = length ss ->
  exists r, destroy_loop i k (Some fp) (Some ss) = Ok r.
Proof.
  induction k as [|k IH]; intros i fp ss Hi Hk Hl; cbn [destroy_loop]; [eauto|].
  destruct (lookup_lt_is_Some_2 ss (Z.to_nat i) ltac:(lia)) as [sz Hsz].
  destruct (lookup_lt_is_Some_2 fp (Z.to_nat i) ltac:(lia)) as [s Hs].
  rewrite (arr_get_in_bounds ss i sz Hi Hsz), bind_Ok_l.
  destruct (1 <? sz)%Z.
  - rewrite (arr_get_in_bounds fp i s Hi Hs), bind_Ok_l.
    rewrite arr_set_in_bounds by lia. rewrite bind_Ok_l.
    apply IH; [lia|lia|]. by rewrite length_insert.
  - apply IH; [lia|lia|done].
Qed.

(** C7: on every reachable state whose array is allocated,
    [cs_field_pointer_destroy_all] returns with the singleton (and
    [_field_pointer]) unset, and the next [cs_field_pointer_ensure_init]
    rebuilds [CS_FIELD_N_POINTERS] slots, each with a null [f] aimed at by
    [p], and sub-list sizes all 0, published again: the state of a first
    initialisation. *)
Theorem destroy_all_then_ensure_init (st : state)
  (Hreach : reachable n_enum st) (Hinit : _field_pointer st <> None) :
  exists st', cs_field_pointer_destroy_all st = Ok st' /\
    cs_glob_field_pointers st' = false /\ _field_pointer st' = None /\
    cs_field_pointer_ensure_init n_enum st' =
      Ok (mk_state (Z.pos n_enum)
            (Some (repeat (mk_slot nullptr PInline) (Pos.to_nat n_enum)))
            (Some (repeat 0%Z (Pos.to_nat n_enum))) true) /\
    (cs_field_pointer_ensure_init n_enum st'
       ≫= cs_field_pointer_ensure_init n_enum) =
    (cs_field_pointer_ensure_init n_enum initial_state).
Proof.
  pose proof (reachable_inv _ Hreach) as Hinv. unfold registry_inv in Hinv.
  destruct (_field_pointer st) as [fp|] eqn:Hfp; [|contradiction].
  destruct (_sublist_size st) as [ss|] eqn:Hss; [|contradiction].
  destruct Hinv as (Hn & Hlf & Hls & _).
  assert (Hex : exists r,
    destroy_loop 0 (Z.to_nat (_n_pointers st)) (Some fp) (Some ss) = Ok r)
    by (apply destroy_loop_Ok; [lia|rewrite Hn; lia|lia]).
  destruct Hex as [r Hr].
  unfold cs_field_pointer_destroy_all. rewrite Hfp, Hss, Hr, bind_Ok_l.
  eexists. split; [reflexivity|]. split; [done|split; [done|]].
  rewrite !(proj2 (ensure_init_idempotent _)). cbn.
  split; reflexivity.
Qed.

End Proofs.

(** ** Concrete runs *)

(** The state after [cs_field_pointer_map_indexed(0, 1, 6)] on a fresh
    registry of one enumerator: slot 0 expanded to two cells. *)
Lemma reachable_expanded_one :
  reachable 1 (mk_state 1 (Some [mk_slot 0%N (PHeap (mk_block 2 {[0%Z := 0%N; 1%Z := 6%N]}))]) (Some [2%Z]) true).
Proof.
  eapply (reachable_step 1 (OpMapIndexed 0 1%Z 6%N)); [constructor|].
  vm_compute. reflexivity.
Qed.

(** Witness of C2 (amended): [map(0, 9)] on that expanded slot. *)
Lemma map_sets_direct_or_position0_witness :
  (0 < Pos.to_nat 1)%nat /\
  exists st', cs_field_pointer_map 1 0 9%N
                (mk_state 1 (Some [mk_slot 0%N (PHeap (mk_block 2 {[0%Z := 0%N; 1%Z := 6%N]}))]) (Some [2%Z]) true)
              = Ok st'.
Proof.
  split; [lia|].
  destruct (map_sets_direct_or_position0 1 0 9%N
              (mk_state 1 (Some [mk_slot 0%N (PHeap (mk_block 2 {[0%Z := 0%N; 1%Z := 6%N]}))]) (Some [2%Z]) true)
              reachable_expanded_one ltac:(lia))
    as (st1 & st' & s & sz & _ & _ & Hmap & _).
  exists st'. exact Hmap.
Defined.

(** C2 as first stated fails: on the expanded slot, [map(0, 9)] leaves
    [f] at 0 and [_sublist_size[0]] at 2, writing 9 at position 0 of the
    heap array. *)
Lemma map_on_expanded_slot_counterexample :
  ~ (forall (st : state) (e : nat) (x : handle),
       reachable 1 st -> (e < Pos.to_nat 1)%nat ->
       exists st', cs_field_pointer_map 1 e x st = Ok st' /\
         exists s, slot_at st' e = Some (s, 1%Z) /\ f s = x).
Proof.
  intros H.
  destruct (H _ 0 9%N reachable_expanded_one ltac:(lia))
    as (st' & Hmap & s & Hslot & Hf).
  vm_compute in Hmap. inversion Hmap; subst. vm_compute in Hslot. discriminate.
Qed.

(** Witness of C7: a registry with one expanded slot, destroyed. *)
Lemma destroy_all_then_ensure_init_witness :
  exists st', cs_field_pointer_destroy_all
                (mk_state 1 (Some [mk_slot 0%N (PHeap (mk_block 2 {[0%Z := 0%N; 1%Z := 6%N]}))]) (Some [2%Z]) true)
              = Ok st' /\ cs_glob_field_pointers st' = false.
Proof.
  destruct (destroy_all_then_ensure_init 1
              (mk_state 1 (Some [mk_slot 0%N (PHeap (mk_block 2 {[0%Z := 0%N; 1%Z := 6%N]}))]) (Some [2%Z]) true)
              reachable_expanded_one ltac:(discriminate))
    as (st' & Hd & Hg & _).
  exists st'. split; [exact Hd|exact Hg].
Defined.

(** C1 (defect): growing an already expanded slot copies the stale inline
    [f] over position 0 ([p[0] = f] runs after [CS_REALLOC] too). After
    [map(0, 5)], [map_indexed(0, 1, 6)], [map_indexed(0, 0, 7)] position 0
    holds 7 and [f] still 5; [map_indexed(0, 2, 8)] then leaves 5 at
    position 0. *)
Theorem regrow_resets_position0 :
  (st ← run 1 [OpMap 0 5%N; OpMapIndexed 0 1%Z 6%N; OpMapIndexed 0 0%Z 7%N]
          initial_state;
   c ← cs_field_pointer_lookup st 0 0%Z; Ok (c, slot_shape st 0))
    = Ok (Def 7%N, Some (5%N, 2%Z, Some 2%Z)) /\
  (st ← run 1 [OpMap 0 5%N; OpMapIndexed 0 1%Z 6%N; OpMapIndexed 0 0%Z 7%N;
               OpMapIndexed 0 2%Z 8%N] initial_state;
   c0 ← cs_field_pointer_lookup st 0 0%Z;
   c1 ← cs_field_pointer_lookup st 0 1%Z;
   c2 ← cs_field_pointer_lookup st 0 2%Z; Ok ([c0; c1; c2], slot_shape st 0))
    = Ok ([Def 5%N; Def 6%N; Def 8%N], Some (5%N, 3%Z, Some 3%Z)).
Proof. split; vm_compute; reflexivity. Qed.

(** C3 (defect): [map_indexed(0, 32767, 6)] stores [32768] into the
    [short] [_sublist_size[0]], which wraps to [-32768]; the following
    [map(0, 3)] then takes the inline path and writes [f], while the lookup
    at sub-index 0 reads the heap block, still holding the null copied at
    growth. *)
Theorem map_after_size_wrap_lookup :
  (st ← run 1 [OpMapIndexed 0 32767%Z 6%N; OpMap 0 3%N] initial_state;
   c ← cs_field_pointer_lookup st 0 0%Z; Ok (c, slot_shape st 0))
    = Ok (Def 0%N, Some (3%N, 1%Z, Some 32768%Z)).
Proof. vm_compute. reflexivity. Qed.

(** C4 (defect): expanding a directly mapped slot to index 32767 keeps the
    direct value at position 0 and puts the handle at 32767, but the
    stored width is [-32768], not 32768. *)
Theorem expand_direct_size_wrap :
  (st ← run 1 [OpMap 0 5%N; OpMapIndexed 0 32767%Z 6%N] initial_state;
   c0 ← cs_field_pointer_lookup st 0 0%Z;
   c1 ← cs_field_pointer_lookup st 0 1%Z;
   ck ← cs_field_pointer_lookup st 0 32767%Z; Ok ([c0; c1; ck], slot_shape st 0))
    = Ok ([Def 5%N; Def 0%N; Def 6%N], Some (5%N, (-32768)%Z, Some 32768%Z)).
Proof. vm_compute. reflexivity. Qed.

(** C5 (defect): from the fresh state, [_sublist_size[0]] goes from 0 to
    [-32768] (a decrease) and a later [map] sets it to 1, the direct tag,
    while [p] still aims at the heap block. *)
Theorem sublist_size_decreases :
  (st ← run 1 [OpEnsureInit] initial_state; Ok (slot_shape st 0))
    = Ok (Some (0%N, 0%Z, None)) /\
  (st ← run 1 [OpEnsureInit; OpMapIndexed 0 1%Z 6%N] initial_state;
   Ok (slot_shape st 0))
    = Ok (Some (0%N, 2%Z, Some 2%Z)) /\
  (st ← run 1 [OpEnsureInit; OpMapIndexed 0 1%Z 6%N; OpMapIndexed 0 32767%Z 7%N]
          initial_state; Ok (slot_shape st 0))
    = Ok (Some (0%N, (-32768)%Z, Some 32768%Z)) /\
  (st ← run 1 [OpEnsureInit; OpMapIndexed 0 1%Z 6%N; OpMapIndexed 0 32767%Z 7%N;
               OpMap 0 9%N] initial_state; Ok (slot_shape st 0))
    = Ok (Some (9%N, 1%Z, Some 32768%Z)).
Proof. repeat split; vm_compute; reflexivity. Qed.

(** C8 (defect): the two asserted preconditions are fatal, but within them
    a call writes out of bounds: after [map_indexed(0, 32767, 6)] the size
    is [-32768], so [map_indexed(0, 1, 3)] shrinks the block to 2 cells and
    its null-filling loop starts at index [-32768]. [index = INT_MAX]
    overflows [index + 1]. *)
Theorem map_indexed_out_of_bounds :
  cs_field_pointer_map_indexed 1 0 (-1)%Z 5%N initial_state = Fatal /\
  cs_field_pointer_map_indexed 1 1 0%Z 5%N initial_state = Fatal /\
  run 1 [OpMapIndexed 0 32767%Z 6%N; OpMapIndexed 0 1%Z 3%N] initial_state = UB /\
  cs_field_pointer_map_indexed 1 0 INT_MAX 5%N initial_state = UB.
Proof. repeat split; vm_compute; reflexivity. Qed.

(** C9 (defect): after [map_indexed(0, 32767, 6)] the slot's size is
    [-32768] (at most 1) while [p] aims at a heap block of 32768 cells;
    after [map_indexed(0, 65536, 6)] the size is 1. *)
Theorem size_tag_inconsistent :
  (st ← run 1 [OpMapIndexed 0 32767%Z 6%N] initial_state; Ok (slot_shape st 0))
    = Ok (Some (0%N, (-32768)%Z, Some 32768%Z)) /\
  (st ← run 1 [OpMapIndexed 0 65536%Z 6%N] initial_state; Ok (slot_shape st 0))
    = Ok (Some (0%N, 1%Z, Some 65537%Z)).
Proof. split; vm_compute; reflexivity. Qed.

(** C10 (defect): slot 0 expanded by [map_indexed(0, 1, 6)] has [f = 0];
    after [map_indexed(0, 32767, 7)] wraps its size, [map(0, 9)] writes
    [f]. *)
Theorem inline_field_rewritten_after_wrap :
  (st ← run 1 [OpMapIndexed 0 1%Z 6%N] initial_state; Ok (slot_shape st 0))
    = Ok (Some (0%N, 2%Z, Some 2%Z)) /\
  (st ← run 1 [OpMapIndexed 0 1%Z 6%N; OpMapIndexed 0 32767%Z 7%N; OpMap 0 9%N]
          initial_state; Ok (slot_shape st 0))
    = Ok (Some (9%N, 1%Z, Some 32768%Z)).
Proof. split; vm_compute; reflexivity. Qed.

(** ** Further properties of the registry *)

Section Further.

Variable n_enum : positive.

Ltac unbind H :=
  let a := fresh "a" in
  let Hm := fresh "Hm" in
  apply bind_Ok in H as [a [Hm H]].

(** Case analysis on the boolean comparisons of a goal. *)
Ltac zbool :=
  repeat match goal with
  | |- context [(?a <=? ?b)%Z] => destruct (Z.leb_spec a b)
  | |- context [(?a <? ?b)%Z] => destruct (Z.ltb_spec a b)
  | |- context [(?a =? ?b)%Z] => destruct (Z.eqb_spec a b)
  end; cbn [andb].

(** *** Heap blocks *)

Lemma blk_get_set len c i j x :
  (0 <= i < len)%Z ->
  blk_get (mk_block len (<[i := x]> c)) j =
  if (j =? i)%Z then Ok (Def x) else blk_get (mk_block len c) j.
Proof.
  intros Hi. unfold blk_get; cbn.
  destruct (j =? i)%Z eqn:Hji.
  - apply Z.eqb_eq in Hji; subst.
    replace ((0 <=? i)%Z && (i <? len)%Z) with true by lia.
    by rewrite lookup_insert_eq.
  - apply Z.eqb_neq in Hji. rewrite lookup_insert_ne by congruence. done.
Qed.

Lemma blk_get_realloc b n j :
  (0 <= j < n)%Z -> (j < blk_len b)%Z ->
  blk_get (realloc_blk b n) j = blk_get b j.
Proof.
  intros Hj Hb. unfold blk_get, realloc_blk; cbn.
  replace ((0 <=? j)%Z && (j <? n)%Z) with true by lia.
  replace ((0 <=? j)%Z && (j <? blk_len b)%Z) with true by lia.
  rewrite map_lookup_filter.
  destruct (blk_cells b !! j); cbn; [|done].
  rewrite option_guard_True by (cbn; lia). done.
Qed.

(** [null_fill i k] on a heap slot writes [nullptr] in the cells
    [i .. i+k-1] and nothing else. *)
Lemma null_fill_cells k : forall i s b,
  p s = PHeap b -> (0 <= i)%Z -> (i + Z.of_nat k <= blk_len b)%Z ->
  exists b', null_fill i k s = Ok (mk_slot (f s) (PHeap b')) /\
    blk_len b' = blk_len b /\
    forall j, blk_get b' j =
      if (i <=? j)%Z && (j <? i + Z.of_nat k)%Z then Ok (Def nullptr)
      else blk_get b j.
Proof.
  induction k as [|k IH]; intros i s b Hp Hi Hk; cbn [null_fill].
  - exists b. destruct s as [fs ps]; cbn in Hp; subst ps.
    split; [reflexivity|split; [reflexivity|]].
    intros j. change (Z.of_nat 0) with 0%Z.
    replace ((i <=? j)%Z && (j <? i + 0)%Z) with false by lia. done.
  - unfold p_set at 1. rewrite Hp.
    rewrite (blk_set_in_bounds b i nullptr) by lia. cbn [mbind outcome_bind].
    edestruct (IH (i + 1)%Z (mk_slot (f s) (PHeap (mk_block (blk_len b)
                 (<[i := nullptr]> (blk_cells b)))))) as (b' & Hb' & Hl & Hc);
      [reflexivity|lia|cbn; lia|].
    exists b'. cbn in Hb', Hl. split; [exact Hb'|split; [exact Hl|]].
    intros j. rewrite Hc, blk_get_set by lia.
    destruct b as [len c]; cbn [blk_len blk_cells].
    rewrite Nat2Z.inj_succ. zbool; try done; lia.
Qed.

(** *** Growth of one slot *)

(** When [0 <= sz <= index] and [index >= 1], the slot grows to a heap block
    of [index + 1] cells: position [index] gets [x], positions from [sz] up
    to [index - 1] get [nullptr], position 0 (when [sz >= 1]) gets the
    inline [f], and the other positions below [sz] keep what [p] held. *)
Lemma slot_map_indexed_grow s sz index x :
  (0 <= sz <= index)%Z -> (1 <= index < INT_MAX)%Z ->
  ((1 < sz)%Z -> exists b, p s = PHeap b /\ (sz <= blk_len b)%Z) ->
  exists b', slot_map_indexed s sz index x =
             Ok (mk_slot (f s) (PHeap b'), to_short (index + 1)) /\
    blk_len b' = (index + 1)%Z /\
    forall j, (0 <= j <= index)%Z ->
      blk_get b' j =
        if (j =? index)%Z then Ok (Def x)
        else if (sz <=? j)%Z then Ok (Def nullptr)
        else if (j =? 0)%Z then Ok (Def (f s))
        else p_get s j.
Proof.
  intros Hsz Hidx Hheap. unfold slot_map_indexed.
  replace ((index =? 0)%Z && (sz <=? 1)%Z) with false by lia.
  replace (sz <=? index)%Z with true by lia.
  unfold grow. replace (INT_MAX <? index + 1)%Z with false by lia.
  set (p1 := match p s with
             | PInline => PHeap (malloc_blk (index + 1))
             | PHeap b => PHeap (realloc_blk b (index + 1))
             | PNull => PHeap (malloc_blk (index + 1))
             end).
  assert (Hp1 : exists b0, p1 = PHeap b0 /\ blk_len b0 = (index + 1)%Z /\
            forall j, (1 <= j < sz)%Z -> blk_get b0 j = p_get s j).
  { subst p1. destruct (p s) as [|b|] eqn:Hps.
    - eexists; split; [reflexivity|split; [reflexivity|]].
      intros j Hj. destruct (Hheap ltac:(lia)) as (b & Hb & _). congruence.
    - eexists; split; [reflexivity|split; [reflexivity|]].
      intros j Hj. destruct (Hheap ltac:(lia)) as (b' & Hb & Hl).
      rewrite ?Hps in Hb. inversion Hb; subst b'.
      unfold p_get. rewrite Hps. apply blk_get_realloc; lia.
    - eexists; split; [reflexivity|split; [reflexivity|]].
      intros j Hj. destruct (Hheap ltac:(lia)) as (b & Hb & _). congruence. }
  destruct Hp1 as (b0 & Hb0 & Hl0 & Hc0).
  unfold p_set at 2. cbn [p]. rewrite Hb0.
  rewrite (blk_set_in_bounds b0 0 (f s)) by lia. cbn [mbind outcome_bind].
  edestruct (null_fill_cells (Z.to_nat (index + 1 - sz)) sz
              (mk_slot (f s) (PHeap (mk_block (blk_len b0)
                 (<[0%Z := f s]> (blk_cells b0)))))) as (b2 & Hb2 & Hl2 & Hc2);
    [reflexivity|lia|cbn; lia|].
  cbn [f blk_len] in Hb2, Hl2, Hc2 |- *. rewrite Hb2. cbn [mbind outcome_bind fst snd].
  unfold p_set. cbn [p f]. rewrite (blk_set_in_bounds b2 index x) by (cbn in Hl2; lia).
  cbn [mbind outcome_bind].
  eexists. split; [reflexivity|]. cbn. split; [cbn in Hl2; lia|].
  intros j Hj. rewrite blk_get_set by (cbn in Hl2; lia).
  destruct (j =? index)%Z eqn:Hji; [done|].
  replace (mk_block (blk_len b2) (blk_cells b2)) with b2 by (destruct b2; done).
  rewrite Hc2, Z2Nat.id by lia.
  rewrite blk_get_set by lia.
  replace (mk_block (blk_len b0) (blk_cells b0)) with b0 by (destruct b0; done).
  zbool; try done; try lia.
    apply Hc0. lia.
Qed.

(** *** From the registry to one slot *)

Lemma ensure_init_some st st1 :
  cs_field_pointer_ensure_init n_enum st = Ok st1 -> _field_pointer st1 <> None.
Proof.
  rewrite ensure_init_eq. destruct (_field_pointer st) eqn:Hfp; intros H;
    inversion H; subst; [congruence|discriminate].
Qed.

Lemma reachable_ensure_init st st1 :
  reachable n_enum st -> cs_field_pointer_ensure_init n_enum st = Ok st1 ->
  registry_inv n_enum st1 /\ _field_pointer st1 <> None.
Proof.
  intros Hr H. split; [|exact (ensure_init_some _ _ H)].
  exact (ensure_init_inv n_enum st st1 (reachable_inv n_enum st Hr) H).
Qed.

Lemma arr_get_insert_ne {A} (l : list A) e j y :
  j <> e -> arr_get (<[e := y]> l) (Z.of_nat j) = arr_get l (Z.of_nat j).
Proof.
  intros Hne. unfold arr_get. replace (0 <=? Z.of_nat j)%Z with true by lia.
  rewrite Nat2Z.id, list_lookup_insert_ne by congruence. done.
Qed.

Lemma arr_get_insert_eq {A} (l : list A) e y :
  (e < length l)%nat -> arr_get (<[e := y]> l) (Z.of_nat e) = Ok y.
Proof.
  intros He. unfold arr_get. replace (0 <=? Z.of_nat e)%Z with true by lia.
  rewrite Nat2Z.id, list_lookup_insert_eq by done. done.
Qed.

(** A returning [cs_field_pointer_map_indexed] went through the lazy
    initialisation and both asserts, and replaced slot [e] and its size by
    the result of [slot_map_indexed]. *)
Lemma map_indexed_Ok_inv e index x st st' :
  cs_field_pointer_map_indexed n_enum e index x st = Ok st' ->
  exists st1 fp ss s sz r,
    (0 <= index)%Z /\ cs_field_pointer_ensure_init n_enum st = Ok st1 /\
    _field_pointer st1 = Some fp /\ _sublist_size st1 = Some ss /\
    (Z.of_nat e < _n_pointers st1)%Z /\
    fp !! e = Some s /\ ss !! e = Some sz /\
    slot_map_indexed s sz index x = Ok r /\
    st' = mk_state (_n_pointers st1) (Some (<[e := r.1]> fp))
                   (Some (<[e := r.2]> ss)) (cs_glob_field_pointers st1).
Proof.
  intros H. unfold cs_field_pointer_map_indexed in H.
  destruct (index <? 0)%Z eqn:Hneg; [discriminate|]. apply Z.ltb_ge in Hneg.
  unbind H. rename a into st1, Hm into Hinit.
  destruct (Z.of_nat e <? _n_pointers st1)%Z eqn:He; cbn in H; [|discriminate].
  apply Z.ltb_lt in He.
  destruct (_field_pointer st1) as [fp|] eqn:Hfp, (_sublist_size st1) as [ss|] eqn:Hss;
    try discriminate.
  unbind H. rename a into s, Hm into Hs. unbind H. rename a into sz, Hm into Hsz.
  apply arr_get_Ok in Hs as [_ Hs]. apply arr_get_Ok in Hsz as [_ Hsz].
  rewrite Nat2Z.id in Hs, Hsz.
  exists st1, fp, ss, s, sz.
  unfold slot_map_indexed.
  destruct ((index =? 0)%Z && (sz <=? 1)%Z).
  - unbind H. apply arr_set_Ok in Hm as [_ ->].
    unbind H. apply arr_set_Ok in Hm as [_ ->]. inversion H; subst.
    rewrite Nat2Z.id. eexists. repeat split; try done; reflexivity.
  - unbind H. rename a into g, Hm into Hg. unbind H. rename a into s', Hm into Hs'.
    unbind H. apply arr_set_Ok in Hm as [_ ->].
    unbind H. apply arr_set_Ok in Hm as [_ ->]. inversion H; subst.
    exists (s', g.2). rewrite Nat2Z.id, Hg, bind_Ok_l, Hs'.
    repeat split; done.
Qed.

(** Conversely, past the asserts the call is the slot update. *)
Lemma map_indexed_slot e index x st st1 fp ss s sz :
  (0 <= index)%Z -> cs_field_pointer_ensure_init n_enum st = Ok st1 ->
  _field_pointer st1 = Some fp -> _sublist_size st1 = Some ss ->
  (Z.of_nat e < _n_pointers st1)%Z -> fp !! e = Some s -> ss !! e = Some sz ->
  cs_field_pointer_map_indexed n_enum e index x st =
    (r ← slot_map_indexed s sz index x;
     Ok (mk_state (_n_pointers st1) (Some (<[e := r.1]> fp))
                  (Some (<[e := r.2]> ss)) (cs_glob_field_pointers st1))).
Proof.
  intros Hi Hinit Hfp Hss He Hs Hsz.
  pose proof (lookup_lt_Some _ _ _ Hs) as Hlf.
  pose proof (lookup_lt_Some _ _ _ Hsz) as Hls.
  unfold cs_field_pointer_map_indexed.
  replace (index <? 0)%Z with false by lia. rewrite Hinit, bind_Ok_l.
  replace (Z.of_nat e <? _n_pointers st1)%Z with true by lia. cbn [negb].
  rewrite Hfp, Hss.
  rewrite (arr_get_in_bounds fp (Z.of_nat e) s) by (rewrite ?Nat2Z.id; done || lia).
  rewrite (arr_get_in_bounds ss (Z.of_nat e) sz) by (rewrite ?Nat2Z.id; done || lia).
  rewrite !bind_Ok_l. unfold slot_map_indexed.
  destruct ((index =? 0)%Z && (sz <=? 1)%Z).
  - rewrite !arr_set_in_bounds by lia. rewrite !Nat2Z.id. reflexivity.
  - destruct (if (sz <=? index)%Z then grow s sz index else Ok (s, sz))
      as [g| |]; [|reflexivity|reflexivity].
    rewrite !bind_Ok_l. destruct (p_set g.1 index x) as [s'| |]; [|reflexivity|reflexivity].
    rewrite !bind_Ok_l, !arr_set_in_bounds by lia. rewrite !Nat2Z.id. reflexivity.
Qed.

(** *** Failures *)

Lemma p_set_not_fatal s i x : p_set s i x <> Fatal.
Proof.
  unfold p_set, blk_set. destruct (p s); repeat case_match; discriminate.
Qed.

Lemma null_fill_not_fatal k : forall i s, null_fill i k s <> Fatal.
Proof.
  induction k as [|k IH]; intros i s; cbn [null_fill]; [discriminate|].
  pose proof (p_set_not_fatal s i nullptr).
  destruct (p_set s i nullptr); cbn; [apply IH|congruence|discriminate].
Qed.

Lemma grow_not_fatal s sz index : grow s sz index <> Fatal.
Proof.
  unfold grow. destruct (INT_MAX <? index + 1)%Z; [discriminate|].
  match goal with |- (p_set ?s0 ?i0 ?x0 ≫= ?k) <> Fatal =>
    pose proof (p_set_not_fatal s0 i0 x0); destruct (p_set s0 i0 x0) as [s1| |] end;
    cbn; [|congruence|discriminate].
  match goal with |- (null_fill ?i0 ?k0 ?s0 ≫= ?k) <> Fatal =>
    pose proof (null_fill_not_fatal k0 i0 s0); destruct (null_fill i0 k0 s0) end;
    cbn; [discriminate|congruence|discriminate].
Qed.

Lemma slot_map_indexed_not_fatal s sz index x :
  slot_map_indexed s sz index x <> Fatal.
Proof.
  unfold slot_map_indexed. destruct ((index =? 0)%Z && (sz <=? 1)%Z); [discriminate|].
  assert (Hg : (if (sz <=? index)%Z then grow s sz index else Ok (s, sz)) <> Fatal)
    by (destruct (sz <=? index)%Z; [apply grow_not_fatal|discriminate]).
  destruct (if (sz <=? index)%Z then grow s sz index else Ok (s, sz)) as [g| |];
    cbn; [|congruence|discriminate].
  pose proof (p_set_not_fatal g.1 index x).
  destruct (p_set g.1 index x); cbn; [discriminate|congruence|discriminate].
Qed.

(** Within the width of an expanded slot the call writes one cell. *)
Lemma slot_map_indexed_within s sz index x b :
  (1 < sz)%Z -> (0 <= index < sz)%Z -> p s = PHeap b -> (sz <= blk_len b)%Z ->
  slot_map_indexed s sz index x =
    Ok (mk_slot (f s) (PHeap (mk_block (blk_len b) (<[index := x]> (blk_cells b)))), sz).
Proof.
  intros Hsz Hi Hp Hl. unfold slot_map_indexed.
  replace ((index =? 0)%Z && (sz <=? 1)%Z) with false by lia.
  replace (sz <=? index)%Z with false by lia. rewrite bind_Ok_l. cbn [fst snd].
  unfold p_set. rewrite Hp, blk_set_in_bounds by lia. reflexivity.
Qed.

(** *** Properties of [cs_field_pointer_map_indexed] *)

Lemma map_indexed_frame_gen e index x st st' :
  cs_field_pointer_map_indexed n_enum e index x st = Ok st' ->
  exists st1, cs_field_pointer_ensure_init n_enum st = Ok st1 /\
    _n_pointers st' = _n_pointers st1 /\
    cs_glob_field_pointers st' = cs_glob_field_pointers st1 /\
    forall j, j <> e ->
      slot_at st' j = slot_at st1 j /\
      forall i, cs_field_pointer_lookup st' j i = cs_field_pointer_lookup st1 j i.
Proof.
  intros H.
  destruct (map_indexed_Ok_inv _ _ _ _ _ H)
    as (st1 & fp & ss & s & sz & r & Hi & Hinit & Hfp & Hss & He & Hs & Hsz & Hr & ->).
  exists st1. split; [done|split; [done|split; [done|]]].
  intros j Hj. split.
  - rewrite slot_at_insert by (eapply lookup_lt_Some; eassumption).
    destruct (decide (j = e)); [congruence|]. apply slot_at_fields; done.
  - intros i. unfold cs_field_pointer_lookup; cbn [cs_glob_field_pointers _field_pointer].
    rewrite Hfp. destruct (cs_glob_field_pointers st1); [|done].
    rewrite arr_get_insert_ne by done. done.
Qed.

(** X1: a returning [cs_field_pointer_map_indexed(e, index, x)] touches slot
    [e] only: the count and the published flag are those left by the lazy
    initialisation, and every other slot, its size and every lookup through
    it are unchanged. *)
Theorem map_indexed_frame e index x st st' :
  cs_field_pointer_map_indexed n_enum e index x st = Ok st' ->
  exists st1, cs_field_pointer_ensure_init n_enum st = Ok st1 /\
    _n_pointers st' = _n_pointers st1 /\
    cs_glob_field_pointers st' = cs_glob_field_pointers st1 /\
    forall j, j <> e ->
      slot_at st' j = slot_at st1 j /\
      forall i, cs_field_pointer_lookup st' j i = cs_field_pointer_lookup st1 j i.
Proof. apply map_indexed_frame_gen. Qed.

(** X2: on every reachable state, [cs_field_pointer_map_indexed] fails an
    assertion exactly when the sub-list index is negative or the enumerator
    is not below [CS_FIELD_N_POINTERS]; no other path of the call, the
    growth block included, asserts. *)
Theorem map_indexed_fatal_iff e index x st :
  reachable n_enum st ->
  cs_field_pointer_map_indexed n_enum e index x st = Fatal <->
  (index < 0)%Z \/ (Pos.to_nat n_enum <= e)%nat.
Proof.
  intros Hr.
  destruct (Z.ltb_spec index 0) as [Hneg|Hpos].
  - unfold cs_field_pointer_map_indexed.
    replace (index <? 0)%Z with true by lia. split; [auto|done].
  - destruct (ensure_init_Ok n_enum st (reachable_inv n_enum st Hr))
      as (st1 & Hinit & Hsome & Hinv).
    destruct (le_lt_dec (Pos.to_nat n_enum) e) as [Hge|Hlt].
    + split; [auto|intros _]. unfold cs_field_pointer_map_indexed.
      replace (index <? 0)%Z with false by lia. rewrite Hinit, bind_Ok_l.
      unfold registry_inv in Hinv.
      destruct (_field_pointer st1) eqn:E1; [|congruence].
      destruct (_sublist_size st1) eqn:E2; [|contradiction].
      destruct Hinv as (Hn & _). rewrite Hn.
      replace (Z.of_nat e <? Z.pos n_enum)%Z with false by lia. reflexivity.
    + destruct (inv_slot n_enum st1 e Hinv Hsome Hlt)
        as (fp & ss & s & sz & Hfp & Hss & Hs & Hsz & _ & Hn & _).
      rewrite (map_indexed_slot e index x st st1 fp ss s sz) by (done || lia).
      pose proof (slot_map_indexed_not_fatal s sz index x) as Hnf.
      split; [|intros [?|?]; lia].
      destruct (slot_map_indexed s sz index x); cbn; congruence.
Qed.

(** X3: on a reachable state whose slot [e] is expanded ([_sublist_size[e]
    > 1]), a call with [0 <= index < _sublist_size[e]] writes [x] in cell
    [index] of the heap block and changes neither [f], the block length nor
    the size. *)
Theorem map_indexed_within_width e index x st st1 s sz :
  reachable n_enum st -> cs_field_pointer_ensure_init n_enum st = Ok st1 ->
  slot_at st1 e = Some (s, sz) -> (1 < sz)%Z -> (0 <= index < sz)%Z ->
  exists b st', p s = PHeap b /\ (sz <= blk_len b)%Z /\
    cs_field_pointer_map_indexed n_enum e index x st = Ok st' /\
    slot_at st' e =
      Some (mk_slot (f s) (PHeap (mk_block (blk_len b)
                                  (<[index := x]> (blk_cells b)))), sz).
Proof.
  intros Hr Hinit Hat Hsz Hi.
  destruct (reachable_ensure_init st st1 Hr Hinit) as [Hinv _].
  unfold slot_at in Hat. unfold registry_inv in Hinv.
  destruct (_field_pointer st1) as [fp|] eqn:Hfp, (_sublist_size st1) as [ss|] eqn:Hss;
    try discriminate.
  destruct (fp !! e) as [s0|] eqn:Hs, (ss !! e) as [sz0|] eqn:Hsz0;
    inversion Hat; subst s0 sz0.
  destruct Hinv as (Hn & Hlf & Hls & Hall).
  destruct (Forall2_lookup_lr _ _ _ _ _ _ Hall Hs Hsz0 Hsz) as (b & Hb & Hbl).
  pose proof (lookup_lt_Some _ _ _ Hs) as He.
  pose proof (lookup_lt_Some _ _ _ Hsz0) as He'.
  exists b. eexists. split; [done|split; [done|split]].
  - rewrite (map_indexed_slot e index x st st1 fp ss s sz) by (done || lia).
    rewrite (slot_map_indexed_within s sz index x b) by done. reflexivity.
  - rewrite slot_at_insert by lia.
    destruct (decide (e = e)); [reflexivity|congruence].
Qed.


(** *** The size tag below the [short] limit *)

Lemma to_short_id z : (-32768 <= z <= 32767)%Z -> to_short z = z.
Proof. intros Hz. unfold to_short. rewrite Z.mod_small by lia. lia. Qed.

Lemma Forall2_slot_tag_fresh k :
  Forall2 slot_tag_ok (repeat (mk_slot nullptr PInline) k) (repeat 0%Z k).
Proof.
  induction k; constructor; [left; split; [lia|done]|done].
Qed.

Lemma ensure_init_tag st st1 :
  registry_tag_inv n_enum st -> cs_field_pointer_ensure_init n_enum st = Ok st1 ->
  registry_tag_inv n_enum st1.
Proof.
  intros Hinv H. rewrite ensure_init_eq in H.
  destruct (_field_pointer st) eqn:Hfp; inversion H; subst; [done|].
  unfold registry_tag_inv; cbn. rewrite !repeat_length.
  repeat split; try done. apply Forall2_slot_tag_fresh.
Qed.

Lemma p_set_get s i x s' : p_set s i x = Ok s' -> p_get s' i = Ok (Def x).
Proof.
  unfold p_set. destruct (p s) as [|b|] eqn:Hp.
  - destruct (i =? 0)%Z eqn:Hi; intros H; inversion H; subst.
    unfold p_get; cbn. by rewrite Hi.
  - intros H. unbind H. apply blk_set_Ok in Hm as [Hb ->]. inversion H; subst.
    unfold p_get, blk_get; cbn.
    replace ((0 <=? i)%Z && (i <? blk_len b)%Z) with true by lia.
    by rewrite lookup_insert_eq.
  - discriminate.
Qed.

(** One slot update below the [short] limit keeps the size tag in step
    with the representation. *)
Lemma slot_map_indexed_tag s sz index x r :
  slot_tag_ok s sz -> (0 <= index <= 32766)%Z ->
  slot_map_indexed s sz index x = Ok r -> slot_tag_ok r.1 r.2.
Proof.
  intros Htag Hi H. unfold slot_map_indexed in H.
  destruct ((index =? 0)%Z && (sz <=? 1)%Z) eqn:Hd.
  - inversion H; subst; cbn. left. split; [lia|].
    destruct Htag as [[_ Hp]|[Hsz _]]; [done|lia].
  - unbind H. rename a into g, Hm into Hg. unbind H. rename a into s', Hm into Hs'.
    inversion H; subst; clear H. destruct g as [g1 g2]; cbn in *.
    destruct (sz <=? index)%Z eqn:Hle.
    + destruct (grow_heap s sz index g1 g2 ltac:(lia) Hg) as (-> & b & Hb & Hl & _).
      destruct (p_set_heap _ _ _ _ _ Hb Hs') as (b' & Hb' & Hl').
      right. rewrite to_short_id by lia. split; [|exists b'; split; [done|lia]].
      destruct Htag as [[Hsz _]|[Hsz _]]; lia.
    + inversion Hg; subst.
      destruct Htag as [[Hsz _]|[Hsz (b & Hb & Hl)]]; [lia|].
      destruct (p_set_heap _ _ _ _ _ Hb Hs') as (b' & Hb' & Hl').
      right. split; [lia|exists b'; split; [done|lia]].
Qed.

Lemma map_indexed_tag e index x st st' :
  registry_tag_inv n_enum st -> (index <= 32766)%Z ->
  cs_field_pointer_map_indexed n_enum e index x st = Ok st' ->
  registry_tag_inv n_enum st'.
Proof.
  intros Hinv Hi H.
  destruct (map_indexed_Ok_inv _ _ _ _ _ H)
    as (st1 & fp & ss & s & sz & r & Hi0 & Hinit & Hfp & Hss & He & Hs & Hsz & Hr & ->).
  pose proof (ensure_init_tag _ _ Hinv Hinit) as Hinv1.
  unfold registry_tag_inv in Hinv1. rewrite Hfp, Hss in Hinv1.
  destruct Hinv1 as (Hn & Hlf & Hls & Hg & Hall).
  unfold registry_tag_inv; cbn. rewrite !length_insert.
  repeat split; try done. apply Forall2_insert; [done|].
  eapply slot_map_indexed_tag; [|split; [exact Hi0|exact Hi]|exact Hr].
  exact (Forall2_lookup_lr _ _ _ _ _ _ Hall Hs Hsz).
Qed.

Lemma destroy_all_tag st st' :
  cs_field_pointer_destroy_all st = Ok st' -> registry_tag_inv n_enum st'.
Proof.
  unfold cs_field_pointer_destroy_all. intros H. unbind H.
  inversion H; subst. done.
Qed.

Lemma bounded_tag_inv st :
  reachable_bounded n_enum st -> registry_tag_inv n_enum st.
Proof.
  induction 1 as [|o st st' _ IH Hb Hstep]; [done|].
  destruct o; cbn [step] in Hstep.
  - exact (ensure_init_tag _ _ IH Hstep).
  - exact (destroy_all_tag _ _ Hstep).
  - eapply map_indexed_tag; [exact IH| |exact Hstep]; lia.
  - exact (map_indexed_tag _ _ _ _ _ IH Hb Hstep).
Qed.

Lemma bounded_reachable st : reachable_bounded n_enum st -> reachable n_enum st.
Proof.
  induction 1 as [|o st st' _ IH _ Hstep]; [constructor|].
  exact (reachable_step n_enum o st st' IH Hstep).
Qed.

(** After the lazy initialisation a bounded state is published and its
    slots are tagged. *)
Lemma bounded_ensure_init st :
  reachable_bounded n_enum st ->
  exists st1 fp ss, cs_field_pointer_ensure_init n_enum st = Ok st1 /\
    _field_pointer st1 = Some fp /\ _sublist_size st1 = Some ss /\
    _n_pointers st1 = Z.pos n_enum /\ length fp = Pos.to_nat n_enum /\
    length ss = Pos.to_nat n_enum /\ cs_glob_field_pointers st1 = true /\
    Forall2 slot_tag_ok fp ss /\
    (_field_pointer st <> None -> st1 = st).
Proof.
  intros Hb. pose proof (bounded_tag_inv _ Hb) as Hinv.
  destruct (cs_field_pointer_ensure_init n_enum st) as [st1| |] eqn:Hinit;
    [|rewrite ensure_init_eq in Hinit; destruct (_field_pointer st); discriminate..].
  pose proof (ensure_init_tag _ _ Hinv Hinit) as Hinv1.
  unfold registry_tag_inv in Hinv1.
  destruct (_field_pointer st1) as [fp|] eqn:Hfp;
    [|exfalso; exact (ensure_init_some _ _ Hinit Hfp)].
  destruct (_sublist_size st1) as [ss|] eqn:Hss; [|contradiction].
  destruct Hinv1 as (Hn & Hlf & Hls & Hg & Hall).
  exists st1, fp, ss. repeat split; try done.
  intros Hsome. rewrite ensure_init_eq in Hinit.
  destruct (_field_pointer st); [|congruence]. by inversion Hinit.
Qed.

(** A tagged slot admits every update below the [short] limit. *)
Lemma slot_map_indexed_tag_Ok s sz index x :
  slot_tag_ok s sz -> (0 <= index <= 32766)%Z ->
  exists r, slot_map_indexed s sz index x = Ok r.
Proof.
  intros Htag Hi.
  destruct ((index =? 0)%Z && (sz <=? 1)%Z) eqn:Hd.
  - unfold slot_map_indexed. rewrite Hd. eauto.
  - assert (Hnd : index <> 0%Z \/ (1 < sz)%Z)
      by (destruct (Z.eqb_spec index 0), (Z.leb_spec sz 1); cbn in Hd;
          try discriminate; lia).
    destruct (Z.leb_spec sz index) as [Hle|Hgt].
    + assert (Hheap : (1 < sz)%Z -> exists b, p s = PHeap b /\ (sz <= blk_len b)%Z).
      { intros Hsz. destruct Htag as [[? _]|[_ (b & Hb & Hl)]]; [lia|].
        exists b. split; [done|lia]. }
      assert (Hsz0 : (0 <= sz)%Z) by (destruct Htag as [[? _]|[? _]]; lia).
      destruct (slot_map_indexed_grow s sz index x ltac:(lia)
                  ltac:(unfold INT_MAX; lia) Hheap) as (b' & Hg & _).
      eauto.
    + destruct Htag as [[? _]|[? (b & Hb & Hl)]]; [lia|].
      rewrite (slot_map_indexed_within s sz index x b) by (done || lia). eauto.
Qed.

Lemma map_indexed_bounded_safe e index x st :
  reachable_bounded n_enum st -> (e < Pos.to_nat n_enum)%nat ->
  (0 <= index <= 32766)%Z ->
  exists st', cs_field_pointer_map_indexed n_enum e index x st = Ok st' /\
    reachable_bounded n_enum st'.
Proof.
  intros Hb He Hi.
  destruct (bounded_ensure_init _ Hb)
    as (st1 & fp & ss & Hinit & Hfp & Hss & Hn & Hlf & Hls & Hg & Hall & _).
  destruct (lookup_lt_is_Some_2 fp e ltac:(lia)) as [s Hs].
  destruct (lookup_lt_is_Some_2 ss e ltac:(lia)) as [sz Hsz].
  destruct (slot_map_indexed_tag_Ok s sz index x
              (Forall2_lookup_lr _ _ _ _ _ _ Hall Hs Hsz) Hi) as [r Hr].
  rewrite (map_indexed_slot e index x st st1 fp ss s sz) by (done || lia).
  rewrite Hr, bind_Ok_l. eexists. split; [reflexivity|].
  eapply (reachable_bounded_step n_enum (OpMapIndexed e index x)); [exact Hb|cbn; lia|].
  cbn [step]. rewrite (map_indexed_slot e index x st st1 fp ss s sz) by (done || lia).
  rewrite Hr. reflexivity.
Qed.

Lemma lookup_slot st e s sz i :
  cs_glob_field_pointers st = true -> slot_at st e = Some (s, sz) ->
  cs_field_pointer_lookup st e i = p_get s i.
Proof.
  intros Hg Hat. unfold slot_at in Hat. unfold cs_field_pointer_lookup. rewrite Hg.
  destruct (_field_pointer st) as [fp|], (_sublist_size st) as [ss|]; try discriminate.
  destruct (fp !! e) as [s0|] eqn:Hs, (ss !! e); inversion Hat; subst.
  rewrite (arr_get_in_bounds fp (Z.of_nat e) s) by (rewrite ?Nat2Z.id; done || lia).
  reflexivity.
Qed.

Lemma map_indexed_lookup_gen e index x st st' :
  reachable_bounded n_enum st ->
  cs_field_pointer_map_indexed n_enum e index x st = Ok st' ->
  cs_field_pointer_lookup st' e index = Ok (Def x).
Proof.
  intros Hb H.
  destruct (map_indexed_Ok_inv _ _ _ _ _ H)
    as (st1 & fp & ss & s & sz & r & Hi0 & Hinit & Hfp & Hss & He & Hs & Hsz & Hr & ->).
  pose proof (ensure_init_tag _ _ (bounded_tag_inv _ Hb) Hinit) as Hinv1.
  unfold registry_tag_inv in Hinv1. rewrite Hfp, Hss in Hinv1.
  destruct Hinv1 as (Hn & Hlf & Hls & Hg & Hall).
  pose proof (Forall2_lookup_lr _ _ _ _ _ _ Hall Hs Hsz) as Htag.
  unfold cs_field_pointer_lookup; cbn [cs_glob_field_pointers _field_pointer].
  rewrite Hg, arr_get_insert_eq by (eapply lookup_lt_Some; eassumption).
  rewrite bind_Ok_l.
  unfold slot_map_indexed in Hr.
  destruct ((index =? 0)%Z && (sz <=? 1)%Z) eqn:Hd.
  - inversion Hr; subst; cbn.
    destruct Htag as [[_ Hp]|[? _]]; [|lia].
    unfold p_get; cbn. rewrite Hp. replace (index =? 0)%Z with true by lia. done.
  - unbind Hr. unbind Hr. inversion Hr; subst. cbn. eapply p_set_get; eassumption.
Qed.

(** X5: on every state reached by returning calls whose sub-list indices
    stay below the [short] limit, the registry is either unset, or holds
    [CS_FIELD_N_POINTERS] slots, is published, and every slot's size tag
    agrees with its representation: sizes 0 and 1 with [p] aimed at [f],
    sizes 2 to 32767 with [p] owning a heap block of exactly that length. *)
Theorem reachable_bounded_tag_inv st :
  reachable_bounded n_enum st -> registry_tag_inv n_enum st.
Proof. apply bounded_tag_inv. Qed.

(** X6: on such states, [cs_field_pointer_map_indexed] with a valid
    enumerator and [0 <= index <= 32766] always returns, with no undefined
    behaviour, and stays among such states. *)
Theorem map_indexed_bounded_Ok e index x st :
  reachable_bounded n_enum st -> (e < Pos.to_nat n_enum)%nat ->
  (0 <= index <= 32766)%Z ->
  exists st', cs_field_pointer_map_indexed n_enum e index x st = Ok st' /\
    reachable_bounded n_enum st'.
Proof. apply map_indexed_bounded_safe. Qed.

(** X7: on such states, after a returning [cs_field_pointer_map_indexed(e,
    index, x)] the lookup [CS_FI_(e, index)] yields [x]. *)
Theorem map_indexed_then_lookup e index x st st' :
  reachable_bounded n_enum st ->
  cs_field_pointer_map_indexed n_enum e index x st = Ok st' ->
  cs_field_pointer_lookup st' e index = Ok (Def x).
Proof. apply map_indexed_lookup_gen. Qed.

(** X8: on such states, a call with [index = INT_MAX] and a valid
    enumerator reaches the growth block and overflows [int n_sub =
    index + 1]: undefined behaviour. *)
Theorem map_indexed_int_max_ub e x st :
  reachable_bounded n_enum st -> (e < Pos.to_nat n_enum)%nat ->
  cs_field_pointer_map_indexed n_enum e INT_MAX x st = UB.
Proof.
  intros Hb He.
  destruct (bounded_ensure_init _ Hb)
    as (st1 & fp & ss & Hinit & Hfp & Hss & Hn & Hlf & Hls & Hg & Hall & _).
  destruct (lookup_lt_is_Some_2 fp e ltac:(lia)) as [s Hs].
  destruct (lookup_lt_is_Some_2 ss e ltac:(lia)) as [sz Hsz].
  pose proof (Forall2_lookup_lr _ _ _ _ _ _ Hall Hs Hsz) as Htag.
  assert (Hsz1 : (sz <= 32767)%Z) by (destruct Htag as [[? _]|[? _]]; lia).
  rewrite (map_indexed_slot e INT_MAX x st st1 fp ss s sz)
    by (unfold INT_MAX; done || lia).
  unfold slot_map_indexed, grow, INT_MAX.
  replace (2147483647 =? 0)%Z with false by reflexivity. cbn [andb].
  replace (sz <=? 2147483647)%Z with true by lia. reflexivity.
Qed.

(** X9: on a reachable state whose array is allocated,
    [cs_field_pointer_destroy_all] returns, but a second call without an
    initialisation in between is undefined behaviour: [_n_pointers] is not
    reset, so its loop reads [_sublist_size[0]] through the freed (null)
    pointer. *)
Theorem destroy_all_twice_ub st :
  reachable n_enum st -> _field_pointer st <> None ->
  exists st', cs_field_pointer_destroy_all st = Ok st' /\
    cs_field_pointer_destroy_all st' = UB.
Proof.
  intros Hr Hinit. pose proof (reachable_inv n_enum st Hr) as Hinv.
  unfold registry_inv in Hinv.
  destruct (_field_pointer st) as [fp|] eqn:Hfp; [|contradiction].
  destruct (_sublist_size st) as [ss|] eqn:Hss; [|contradiction].
  destruct Hinv as (Hn & Hlf & Hls & _).
  destruct (destroy_loop_Ok (Z.to_nat (_n_pointers st)) 0 fp ss ltac:(lia)
              ltac:(rewrite Hn; lia) ltac:(lia)) as [r Hr'].
  unfold cs_field_pointer_destroy_all. rewrite Hfp, Hss, Hr', bind_Ok_l.
  eexists. split; [reflexivity|]. cbn. rewrite Hn, Z2Nat.inj_pos.
  pose proof (Pos2Nat.is_pos n_enum).
  destruct (Pos.to_nat n_enum); [lia|reflexivity].
Qed.

End Further.

(** Witness of X1: [map_indexed(0, 0, 5)] on a fresh registry of two
    enumerators leaves slot 1 as initialised. *)
Lemma map_indexed_frame_witness :
  cs_field_pointer_map_indexed 2 0 0%Z 5%N initial_state =
    Ok (mk_state 2 (Some [mk_slot 5%N PInline; mk_slot 0%N PInline])
                   (Some [1%Z; 0%Z]) true) /\
  exists st1, cs_field_pointer_ensure_init 2 initial_state = Ok st1 /\
    slot_at (mk_state 2 (Some [mk_slot 5%N PInline; mk_slot 0%N PInline])
                        (Some [1%Z; 0%Z]) true) 1 = slot_at st1 1.
Proof.
  split; [vm_compute; reflexivity|].
  destruct (map_indexed_frame 2 0 0%Z 5%N initial_state
              (mk_state 2 (Some [mk_slot 5%N PInline; mk_slot 0%N PInline])
                          (Some [1%Z; 0%Z]) true)
              ltac:(vm_compute; reflexivity)) as (st1 & H1 & _ & _ & Hj).
  exists st1. split; [exact H1|]. exact (proj1 (Hj 1%nat ltac:(discriminate))).
Defined.

(** Witness of X2: enumerator 3 on a registry of two. *)
Lemma map_indexed_fatal_iff_witness :
  reachable 2 initial_state /\
  (cs_field_pointer_map_indexed 2 3 0%Z 7%N initial_state = Fatal <->
   (0 < 0)%Z \/ (Pos.to_nat 2 <= 3)%nat).
Proof.
  split; [constructor|].
  apply (map_indexed_fatal_iff 2 3 0%Z 7%N initial_state). constructor.
Defined.

(** Witness of X3: [map_indexed(0, 1, 9)] on the slot expanded to two
    cells. *)
Lemma map_indexed_within_width_witness :
  exists b st', cs_field_pointer_map_indexed 1 0 1%Z 9%N
      (mk_state 1 (Some [mk_slot 0%N (PHeap (mk_block 2 {[0%Z := 0%N; 1%Z := 6%N]}))])
         (Some [2%Z]) true) = Ok st' /\
    slot_at st' 0 = Some (mk_slot 0%N (PHeap (mk_block (blk_len b)
                            (<[1%Z := 9%N]> (blk_cells b)))), 2%Z).
Proof.
  destruct (map_indexed_within_width 1 0 1%Z 9%N
      (mk_state 1 (Some [mk_slot 0%N (PHeap (mk_block 2 {[0%Z := 0%N; 1%Z := 6%N]}))])
         (Some [2%Z]) true)
      (mk_state 1 (Some [mk_slot 0%N (PHeap (mk_block 2 {[0%Z := 0%N; 1%Z := 6%N]}))])
         (Some [2%Z]) true)
      (mk_slot 0%N (PHeap (mk_block 2 {[0%Z := 0%N; 1%Z := 6%N]}))) 2%Z
      reachable_expanded_one ltac:(reflexivity) ltac:(reflexivity)
      ltac:(lia) ltac:(lia)) as (b & st' & _ & _ & Hm & Hat).
  exists b, st'. split; [exact Hm|exact Hat].
Defined.


(** Witness of X5: the slot expanded to two cells is tagged. *)
Lemma reachable_bounded_tag_inv_witness :
  registry_tag_inv 1 (mk_state 1 (Some [mk_slot 0%N (PHeap (mk_block 2 {[0%Z := 0%N; 1%Z := 6%N]}))]) (Some [2%Z]) true).
Proof.
  apply (reachable_bounded_tag_inv 1 (mk_state 1 (Some [mk_slot 0%N (PHeap (mk_block 2 {[0%Z := 0%N; 1%Z := 6%N]}))]) (Some [2%Z]) true)).
  eapply (reachable_bounded_step 1 (OpMapIndexed 0 1%Z 6%N));
    [constructor|cbn; lia|vm_compute; reflexivity].
Defined.

(** Witness of X6: [map_indexed(0, 3, 4)] on that expanded slot. *)
Lemma map_indexed_bounded_Ok_witness :
  exists st', cs_field_pointer_map_indexed 1 0 3%Z 4%N (mk_state 1 (Some [mk_slot 0%N (PHeap (mk_block 2 {[0%Z := 0%N; 1%Z := 6%N]}))]) (Some [2%Z]) true) = Ok st' /\
    reachable_bounded 1 st'.
Proof.
  apply (map_indexed_bounded_Ok 1 0 3%Z 4%N (mk_state 1 (Some [mk_slot 0%N (PHeap (mk_block 2 {[0%Z := 0%N; 1%Z := 6%N]}))]) (Some [2%Z]) true)
           ltac:(eapply (reachable_bounded_step 1 (OpMapIndexed 0 1%Z 6%N));
               [constructor|cbn; lia|vm_compute; reflexivity])
           ltac:(lia) ltac:(lia)).
Defined.

(** Witness of X7: [map_indexed(0, 2, 9)] on a fresh registry of one
    enumerator, then [CS_FI_(0, 2)]. *)
Lemma map_indexed_then_lookup_witness :
  cs_field_pointer_lookup
    (mk_state 1 (Some [mk_slot 0%N (PHeap (mk_block 3
                   {[0%Z := 0%N; 1%Z := 0%N; 2%Z := 9%N]}))]) (Some [3%Z]) true)
    0 2%Z = Ok (Def 9%N).
Proof.
  apply (map_indexed_then_lookup 1 0 2%Z 9%N initial_state); [constructor|].
  vm_compute. reflexivity.
Defined.

(** Witness of X8: [map_indexed(0, INT_MAX, 4)] on a fresh registry. *)
Lemma map_indexed_int_max_ub_witness :
  cs_field_pointer_map_indexed 1 0 INT_MAX 4%N initial_state = UB.
Proof.
  apply (map_indexed_int_max_ub 1 0 4%N initial_state); [constructor|lia].
Defined.

(** Witness of X9: [destroy_all] twice on the expanded registry. *)
Lemma destroy_all_twice_ub_witness :
  exists st', cs_field_pointer_destroy_all (mk_state 1 (Some [mk_slot 0%N (PHeap (mk_block 2 {[0%Z := 0%N; 1%Z := 6%N]}))]) (Some [2%Z]) true) = Ok st' /\
    cs_field_pointer_destroy_all st' = UB.
Proof.
  apply (destroy_all_twice_ub 1 (mk_state 1 (Some [mk_slot 0%N (PHeap (mk_block 2 {[0%Z := 0%N; 1%Z := 6%N]}))]) (Some [2%Z]) true) reachable_expanded_one).
  cbn. discriminate.
Defined.

(** ** The domain mapping functions *)

Section MappingProofs.

Variable n_enum : positive.
Variable cs_field_by_name_try : string -> handle.
Variable cs_field_by_id : Z -> handle.
Variable CS_ENUMF_ : string -> nat.

Ltac unbind H :=
  let a := fresh "a" in
  let Hm := fresh "Hm" in
  apply bind_Ok in H as [a [Hm H]].

Lemma bounded_glob st :
  reachable_bounded n_enum st -> _field_pointer st <> None ->
  cs_glob_field_pointers st = true.
Proof.
  intros Hb Hs. pose proof (bounded_tag_inv n_enum st Hb) as Hinv.
  unfold registry_tag_inv in Hinv.
  destruct (_field_pointer st); [|congruence].
  destruct (_sublist_size st); [|contradiction]. tauto.
Qed.

Lemma map_indexed_Ok_some e index x st st' :
  cs_field_pointer_map_indexed n_enum e index x st = Ok st' ->
  _field_pointer st' <> None.
Proof.
  intros H. destruct (map_indexed_Ok_inv n_enum _ _ _ _ _ H)
    as (st1 & fp & ss & s & sz & r & _ & _ & _ & _ & _ & _ & _ & _ & ->).
  discriminate.
Qed.

(** Other enumerators seen from an initialised state. *)
Lemma map_indexed_frame_init e index x st st' :
  _field_pointer st <> None ->
  cs_field_pointer_map_indexed n_enum e index x st = Ok st' ->
  forall j, j <> e ->
    slot_at st' j = slot_at st j /\
    forall i, cs_field_pointer_lookup st' j i = cs_field_pointer_lookup st j i.
Proof.
  intros Hs H. destruct (map_indexed_frame_gen n_enum _ _ _ _ _ H)
    as (st1 & Hinit & _ & _ & Hfr).
  rewrite ensure_init_eq in Hinit.
  destruct (_field_pointer st); [|congruence]. inversion Hinit; subst. exact Hfr.
Qed.

(** One [cs_field_pointer_map] on a bounded state. *)
Lemma map_step e x st :
  reachable_bounded n_enum st -> (e < Pos.to_nat n_enum)%nat ->
  exists st', cs_field_pointer_map n_enum e x st = Ok st' /\
    reachable_bounded n_enum st' /\ _field_pointer st' <> None /\
    cs_field_pointer_lookup st' e 0 = Ok (Def x) /\
    (_field_pointer st <> None -> forall j, j <> e ->
       slot_at st' j = slot_at st j /\
       forall i, cs_field_pointer_lookup st' j i = cs_field_pointer_lookup st j i).
Proof.
  intros Hb He. unfold cs_field_pointer_map.
  destruct (map_indexed_bounded_safe n_enum e 0 x st Hb He ltac:(lia))
    as (st' & Hm & Hb').
  exists st'. split; [done|split; [done|split; [|split]]].
  - exact (map_indexed_Ok_some _ _ _ _ _ Hm).
  - exact (map_indexed_lookup_gen n_enum e 0 x st st' Hb Hm).
  - intros Hs. exact (map_indexed_frame_init _ _ _ _ _ Hs Hm).
Qed.

Lemma map_list_spec l : forall st,
  reachable_bounded n_enum st ->
  Forall (fun ex => (ex.1 < Pos.to_nat n_enum)%nat) l -> NoDup l.*1 ->
  exists st', map_list n_enum l st = Ok st' /\ reachable_bounded n_enum st' /\
    (_field_pointer st <> None \/ l <> [] -> _field_pointer st' <> None) /\
    Forall (fun ex => cs_field_pointer_lookup st' ex.1 0 = Ok (Def ex.2)) l /\
    (_field_pointer st <> None -> forall j, j ∉ l.*1 ->
       slot_at st' j = slot_at st j /\
       forall i, cs_field_pointer_lookup st' j i = cs_field_pointer_lookup st j i).
Proof.
  induction l as [|[e x] l IH]; intros st Hb Hlt Hnd.
  - exists st. split; [done|split; [done|split; [intros [?|?]; done|]]].
    split; [constructor|]. intros _ j _. split; done.
  - apply Forall_cons in Hlt as [He Hlt]. cbn in Hnd.
    apply NoDup_cons in Hnd as [Hnin Hnd].
    destruct (map_step e x st Hb He) as (st1 & Hm1 & Hb1 & Hs1 & Hl1 & Hfr1).
    destruct (IH st1 Hb1 Hlt Hnd) as (st' & Hm & Hb' & Hs' & Hall & Hfr).
    exists st'. cbn [map_list]. rewrite Hm1, bind_Ok_l.
    split; [done|split; [done|split; [intros _; apply Hs'; left; done|split]]].
    + constructor; [|done]. cbn.
      rewrite (proj2 (Hfr Hs1 e Hnin) 0%Z). exact Hl1.
    + intros Hs j Hj. cbn in Hj. apply not_elem_of_cons in Hj as [Hje Hj].
      destruct (Hfr Hs1 j Hj) as [Ha Hl]. destruct (Hfr1 Hs j Hje) as [Ha1 Hl1'].
      split; [congruence|]. intros i. rewrite Hl, Hl1'. done.
Qed.

Lemma map_base_as_list st :
  cs_field_pointer_map_base n_enum cs_field_by_name_try CS_ENUMF_ st =
  map_list n_enum (map_base_list cs_field_by_name_try CS_ENUMF_) st.
Proof.
  unfold cs_field_pointer_map_base, map_base_list. cbn [map_list].
  repeat (destruct (cs_field_pointer_map _ _ _ _) as [?| |];
          cbn [mbind outcome_bind]; try reflexivity).
Qed.

(** X10: on a bounded state, [cs_field_pointer_map_base] with pairwise
    distinct enumerators below the count returns, and afterwards each of
    its ten enumerators looks up, at sub-index 0, the field
    [cs_field_by_name_try] gave for it; on an initialised state every other
    enumerator is unchanged. *)
Theorem map_base_lookups st :
  reachable_bounded n_enum st ->
  NoDup (map_base_list cs_field_by_name_try CS_ENUMF_).*1 ->
  Forall (fun ex => (ex.1 < Pos.to_nat n_enum)%nat)
    (map_base_list cs_field_by_name_try CS_ENUMF_) ->
  exists st', cs_field_pointer_map_base n_enum cs_field_by_name_try CS_ENUMF_ st = Ok st' /\
    reachable_bounded n_enum st' /\
    Forall (fun ex => cs_field_pointer_lookup st' ex.1 0 = Ok (Def ex.2))
      (map_base_list cs_field_by_name_try CS_ENUMF_) /\
    (_field_pointer st <> None ->
     forall j, j ∉ (map_base_list cs_field_by_name_try CS_ENUMF_).*1 ->
     forall i, cs_field_pointer_lookup st' j i = cs_field_pointer_lookup st j i).
Proof.
  intros Hb Hnd Hlt.
  destruct (map_list_spec _ st Hb Hlt Hnd) as (st' & Hm & Hb' & _ & Hall & Hfr).
  exists st'. rewrite map_base_as_list.
  split; [done|split; [done|split; [done|]]].
  intros Hs j Hj. exact (proj2 (Hfr Hs j Hj)).
Qed.

(** X11: on a bounded state, [cs_field_pointer_map_boundary] with
    [CS_ENUMF_(t_b)] below the count returns, and afterwards [t_b] looks up
    the field named "boundary_temperature"; on an initialised state every
    other enumerator is unchanged. *)
Theorem map_boundary_lookup st :
  reachable_bounded n_enum st -> (CS_ENUMF_ "t_b" < Pos.to_nat n_enum)%nat ->
  exists st', cs_field_pointer_map_boundary n_enum cs_field_by_name_try CS_ENUMF_ st = Ok st' /\
    reachable_bounded n_enum st' /\
    cs_field_pointer_lookup st' (CS_ENUMF_ "t_b") 0 =
      Ok (Def (cs_field_by_name_try "boundary_temperature")) /\
    (_field_pointer st <> None -> forall j, j <> CS_ENUMF_ "t_b" ->
     forall i, cs_field_pointer_lookup st' j i = cs_field_pointer_lookup st j i).
Proof.
  intros Hb He. unfold cs_field_pointer_map_boundary.
  destruct (map_step _ (cs_field_by_name_try "boundary_temperature") st Hb He)
    as (st' & Hm & Hb' & _ & Hl & Hfr).
  exists st'. split; [done|split; [done|split; [done|]]].
  intros Hs j Hj. exact (proj2 (Hfr Hs j Hj)).
Qed.

Lemma map_indexed_after_init e index x st st1 :
  cs_field_pointer_ensure_init n_enum st = Ok st1 ->
  cs_field_pointer_map_indexed n_enum e index x st =
  cs_field_pointer_map_indexed n_enum e index x st1.
Proof.
  intros H. pose proof (ensure_init_some n_enum st st1 H) as Hs.
  assert (H1 : cs_field_pointer_ensure_init n_enum st1 = Ok st1)
    by (rewrite ensure_init_eq; destruct (_field_pointer st1); [done|congruence]).
  unfold cs_field_pointer_map_indexed. rewrite H, H1, !bind_Ok_l. reflexivity.
Qed.

Lemma map_list_after_init l st st1 :
  l <> [] -> cs_field_pointer_ensure_init n_enum st = Ok st1 ->
  map_list n_enum l st = map_list n_enum l st1.
Proof.
  destruct l as [|[e x] l]; [congruence|]. intros _ H. cbn [map_list].
  unfold cs_field_pointer_map. by rewrite (map_indexed_after_init e 0 x st st1 H).
Qed.

Lemma map_atmospheric_split n_chem_species species_f_id st :
  cs_field_pointer_map_atmospheric n_enum cs_field_by_name_try cs_field_by_id
    CS_ENUMF_ n_chem_species species_f_id st =
  (st3 ← map_list n_enum (map_atmospheric_list cs_field_by_name_try CS_ENUMF_) st;
   atmo_species_loop n_enum cs_field_by_id CS_ENUMF_ 0
     (Z.to_nat n_chem_species) species_f_id st3).
Proof.
  unfold cs_field_pointer_map_atmospheric, map_atmospheric_list. cbn [map_list].
  repeat (destruct (cs_field_pointer_map _ _ _ _) as [?| |];
          cbn [mbind outcome_bind]; try reflexivity).
Qed.

(** The first species: slot [chemistry], of size at most 1, takes
    [species_f_id[0]] inline. *)
Lemma atmo_first (species_f_id : list Z) st s sz id0 :
  reachable_bounded n_enum st -> _field_pointer st <> None ->
  (CS_ENUMF_ "chemistry" < Pos.to_nat n_enum)%nat ->
  slot_at st (CS_ENUMF_ "chemistry") = Some (s, sz) -> (sz <= 1)%Z ->
  species_f_id !! 0%nat = Some id0 ->
  exists st', cs_field_pointer_map_indexed n_enum (CS_ENUMF_ "chemistry") 0
                (cs_field_by_id id0) st = Ok st' /\
    reachable_bounded n_enum st' /\ _field_pointer st' <> None /\
    (exists s, slot_at st' (CS_ENUMF_ "chemistry") = Some (s, 1%Z) /\
     (exists id0, species_f_id !! 0%nat = Some id0 /\ f s = cs_field_by_id id0) /\
     forall j id, (0 <= j < 1%Z)%Z -> species_f_id !! Z.to_nat j = Some id ->
       p_get s j = Ok (Def (cs_field_by_id id))) /\
    (forall j, j <> CS_ENUMF_ "chemistry" -> forall i,
       cs_field_pointer_lookup st' j i = cs_field_pointer_lookup st j i).
Proof.
  intros Hb Hs He Hat Hsz Hid0.
  destruct (map_indexed_bounded_safe n_enum _ 0 (cs_field_by_id id0) st Hb He
              ltac:(lia)) as (st' & Hm & Hb').
  destruct (bounded_ensure_init n_enum st Hb)
    as (st1 & fp & ss & Hinit & Hfp & Hss & Hn & Hlf & Hls & Hg & Hall & Hsame).
  specialize (Hsame Hs). subst st1.
  unfold slot_at in Hat. rewrite Hfp, Hss in Hat.
  destruct (fp !! CS_ENUMF_ "chemistry") as [s0|] eqn:Hs0, (ss !! CS_ENUMF_ "chemistry") as [sz0|] eqn:Hsz0;
    inversion Hat; subst s0 sz0.
  pose proof (Forall2_lookup_lr _ _ _ _ _ _ Hall Hs0 Hsz0) as Htag.
  assert (Hp : p s = PInline) by (destruct Htag as [[_ ?]|[? _]]; [done|lia]).
  pose proof Hm as Hm'.
  rewrite (map_indexed_slot n_enum _ 0 _ st st fp ss s sz) in Hm' by (done || lia).
  unfold slot_map_indexed in Hm'.
  replace ((0 =? 0)%Z && (sz <=? 1)%Z) with true in Hm' by lia.
  cbn in Hm'. inversion Hm'; subst st'; clear Hm'.
  eexists. split; [exact Hm|split; [exact Hb'|split; [discriminate|split]]].
  - exists (mk_slot (cs_field_by_id id0) (p s)). split.
    + rewrite slot_at_insert by (eapply lookup_lt_Some; eassumption).
      destruct (decide (CS_ENUMF_ "chemistry" = CS_ENUMF_ "chemistry")); [reflexivity|congruence].
    + split; [exists id0; done|].
      intros j id Hj Hid. assert (j = 0%Z) as -> by lia.
      change (Z.to_nat 0) with 0%nat in Hid. rewrite Hid0 in Hid. inversion Hid; subst.
      unfold p_get; cbn. rewrite Hp. reflexivity.
  - intros j Hj. exact (proj2 (map_indexed_frame_init _ _ _ _ _ Hs Hm j Hj)).
Qed.

(** A further species [i >= 1]: the slot grows by one cell and keeps the
    species stored so far. *)
Lemma atmo_grow (species_f_id : list Z) st i id :
  reachable_bounded n_enum st -> _field_pointer st <> None ->
  (CS_ENUMF_ "chemistry" < Pos.to_nat n_enum)%nat -> (1 <= i <= 32766)%Z ->
  (exists s, slot_at st (CS_ENUMF_ "chemistry") = Some (s, i) /\
     (exists id0, species_f_id !! 0%nat = Some id0 /\ f s = cs_field_by_id id0) /\
     forall j id, (0 <= j < i)%Z -> species_f_id !! Z.to_nat j = Some id ->
       p_get s j = Ok (Def (cs_field_by_id id))) ->
  species_f_id !! Z.to_nat i = Some id ->
  exists st', cs_field_pointer_map_indexed n_enum (CS_ENUMF_ "chemistry") i
                (cs_field_by_id id) st = Ok st' /\
    reachable_bounded n_enum st' /\ _field_pointer st' <> None /\
    (exists s, slot_at st' (CS_ENUMF_ "chemistry") = Some (s, (i + 1)%Z) /\
     (exists id0, species_f_id !! 0%nat = Some id0 /\ f s = cs_field_by_id id0) /\
     forall j id, (0 <= j < (i + 1)%Z)%Z -> species_f_id !! Z.to_nat j = Some id ->
       p_get s j = Ok (Def (cs_field_by_id id))) /\
    (forall j, j <> CS_ENUMF_ "chemistry" -> forall i,
       cs_field_pointer_lookup st' j i = cs_field_pointer_lookup st j i).
Proof.
  intros Hb Hs He Hi (s & Hat & (id0 & Hid0 & Hf) & Hget) Hid.
  destruct (map_indexed_bounded_safe n_enum _ i (cs_field_by_id id) st Hb He
              ltac:(lia)) as (st' & Hm & Hb').
  destruct (bounded_ensure_init n_enum st Hb)
    as (st1 & fp & ss & Hinit & Hfp & Hss & Hn & Hlf & Hls & Hg & Hall & Hsame).
  specialize (Hsame Hs). subst st1.
  unfold slot_at in Hat. rewrite Hfp, Hss in Hat.
  destruct (fp !! CS_ENUMF_ "chemistry") as [s0|] eqn:Hs0, (ss !! CS_ENUMF_ "chemistry") as [sz0|] eqn:Hsz0;
    inversion Hat; subst s0 sz0.
  pose proof (Forall2_lookup_lr _ _ _ _ _ _ Hall Hs0 Hsz0) as Htag.
  assert (Hheap : (1 < i)%Z -> exists b, p s = PHeap b /\ (i <= blk_len b)%Z).
  { intros Hlt. destruct Htag as [[? _]|[_ (b & Hb0 & Hl0)]]; [lia|].
    exists b. split; [done|lia]. }
  destruct (slot_map_indexed_grow s i i (cs_field_by_id id) ltac:(lia)
              ltac:(unfold INT_MAX; lia) Hheap) as (b' & Hgr & Hl & Hc).
  pose proof Hm as Hm'.
  rewrite (map_indexed_slot n_enum _ i _ st st fp ss s i) in Hm' by (done || lia).
  rewrite Hgr in Hm'. cbn in Hm'. inversion Hm'; subst st'; clear Hm'.
  eexists. split; [exact Hm|split; [exact Hb'|split; [discriminate|split]]].
  - exists (mk_slot (f s) (PHeap b')). split.
    + rewrite slot_at_insert by (eapply lookup_lt_Some; eassumption).
      destruct (decide (CS_ENUMF_ "chemistry" = CS_ENUMF_ "chemistry")); [|congruence].
      cbn. rewrite to_short_id by lia. reflexivity.
    + split; [exists id0; done|].
      intros j id' Hj Hid'. unfold p_get; cbn [p]. rewrite (Hc j) by lia.
      destruct (Z.eqb_spec j i) as [->|Hji].
      { rewrite Hid in Hid'. by inversion Hid'. }
      replace (i <=? j)%Z with false by lia.
      destruct (Z.eqb_spec j 0) as [->|Hj0].
      { change (Z.to_nat 0) with 0%nat in Hid'. rewrite Hid0 in Hid'. inversion Hid'; subst. by rewrite Hf. }
      apply Hget; [lia|done].
  - intros j Hj. exact (proj2 (map_indexed_frame_init _ _ _ _ _ Hs Hm j Hj)).
Qed.

Lemma atmo_loop (species_f_id : list Z) k : forall i st,
  reachable_bounded n_enum st -> _field_pointer st <> None ->
  (CS_ENUMF_ "chemistry" < Pos.to_nat n_enum)%nat -> (1 <= i)%Z -> (i + Z.of_nat k <= 32767)%Z ->
  (Z.to_nat i + k <= length species_f_id)%nat ->
  (exists s, slot_at st (CS_ENUMF_ "chemistry") = Some (s, i) /\
     (exists id0, species_f_id !! 0%nat = Some id0 /\ f s = cs_field_by_id id0) /\
     forall j id, (0 <= j < i)%Z -> species_f_id !! Z.to_nat j = Some id ->
       p_get s j = Ok (Def (cs_field_by_id id))) ->
  exists st', atmo_species_loop n_enum cs_field_by_id CS_ENUMF_ i k
                species_f_id st = Ok st' /\
    reachable_bounded n_enum st' /\ _field_pointer st' <> None /\
    (exists s, slot_at st' (CS_ENUMF_ "chemistry") = Some (s, (i + Z.of_nat k)%Z) /\
     (exists id0, species_f_id !! 0%nat = Some id0 /\ f s = cs_field_by_id id0) /\
     forall j id, (0 <= j < (i + Z.of_nat k)%Z)%Z -> species_f_id !! Z.to_nat j = Some id ->
       p_get s j = Ok (Def (cs_field_by_id id))) /\
    (forall j, j <> CS_ENUMF_ "chemistry" -> forall i,
       cs_field_pointer_lookup st' j i = cs_field_pointer_lookup st j i).
Proof.
  induction k as [|k IH]; intros i st Hb Hs He Hi Hk Hlen Hinv.
  - exists st. cbn [atmo_species_loop]. rewrite Z.add_0_r.
    split; [done|split; [done|split; [done|split; [done|]]]]. done.
  - destruct (lookup_lt_is_Some_2 species_f_id (Z.to_nat i) ltac:(lia)) as [id Hid].
    destruct (atmo_grow species_f_id st i id Hb Hs He ltac:(lia) Hinv Hid)
      as (st1 & Hm1 & Hb1 & Hs1 & Hinv1 & Hfr1).
    destruct (IH (i + 1)%Z st1 Hb1 Hs1 He ltac:(lia) ltac:(lia)
                ltac:(rewrite Z2Nat.inj_add by lia; cbn; lia) Hinv1)
      as (st' & Hm & Hb' & Hs' & Hinv' & Hfr).
    exists st'. cbn [atmo_species_loop].
    rewrite (arr_get_in_bounds species_f_id i id) by (lia || done).
    rewrite bind_Ok_l, Hm1, bind_Ok_l.
    replace (i + Z.of_nat (S k))%Z with (i + 1 + Z.of_nat k)%Z by lia.
    split; [done|split; [done|split; [done|split; [done|]]]].
    intros j Hj i'. rewrite Hfr, Hfr1 by done. done.
Qed.

(** X12: on a bounded state, with the four enumerators [pot_t], [ym_w],
    [ntdrp] and [chemistry] pairwise distinct and below the count, slot
    [chemistry] of size at most 1 (or the registry not yet initialised),
    [1 <= n_chem_species <= 32767] and at least [n_chem_species] ids,
    [cs_field_pointer_map_atmospheric] returns; afterwards [pot_t], [ym_w]
    and [ntdrp] look up their named fields, slot [chemistry] has size
    [n_chem_species], and its sub-index [i] looks up
    [cs_field_by_id(species_f_id[i])] for every species [i]. *)
Theorem map_atmospheric_species n_chem_species (species_f_id : list Z) st :
  reachable_bounded n_enum st ->
  NoDup [CS_ENUMF_ "pot_t"; CS_ENUMF_ "ym_w"; CS_ENUMF_ "ntdrp"; CS_ENUMF_ "chemistry"] ->
  Forall (fun e => (e < Pos.to_nat n_enum)%nat)
    [CS_ENUMF_ "pot_t"; CS_ENUMF_ "ym_w"; CS_ENUMF_ "ntdrp"; CS_ENUMF_ "chemistry"] ->
  (forall s sz, slot_at st (CS_ENUMF_ "chemistry") = Some (s, sz) -> (sz <= 1)%Z) ->
  (1 <= n_chem_species <= 32767)%Z ->
  (Z.to_nat n_chem_species <= length species_f_id)%nat ->
  exists st', cs_field_pointer_map_atmospheric n_enum cs_field_by_name_try
                cs_field_by_id CS_ENUMF_ n_chem_species species_f_id st = Ok st' /\
    reachable_bounded n_enum st' /\
    cs_field_pointer_lookup st' (CS_ENUMF_ "pot_t") 0 =
      Ok (Def (cs_field_by_name_try "temperature")) /\
    cs_field_pointer_lookup st' (CS_ENUMF_ "ym_w") 0 =
      Ok (Def (cs_field_by_name_try "ym_water")) /\
    cs_field_pointer_lookup st' (CS_ENUMF_ "ntdrp") 0 =
      Ok (Def (cs_field_by_name_try "number_of_droplets")) /\
    (exists s, slot_at st' (CS_ENUMF_ "chemistry") = Some (s, n_chem_species)) /\
    forall i id, (0 <= i < n_chem_species)%Z ->
      species_f_id !! Z.to_nat i = Some id ->
      cs_field_pointer_lookup st' (CS_ENUMF_ "chemistry") i = Ok (Def (cs_field_by_id id)).
Proof.
  intros Hb Hnd Hlt Hchem Hn Hlen.
  destruct (bounded_ensure_init n_enum st Hb)
    as (st1 & fp & ss & Hinit & Hfp & Hss & HN & Hlf & Hls & Hg & Hall & Hsame).
  assert (Hb1 : reachable_bounded n_enum st1)
    by exact (reachable_bounded_step n_enum OpEnsureInit st st1 Hb I Hinit).
  assert (Hs1 : _field_pointer st1 <> None) by congruence.
  change (NoDup ([CS_ENUMF_ "pot_t"; CS_ENUMF_ "ym_w"; CS_ENUMF_ "ntdrp"] ++ [CS_ENUMF_ "chemistry"]))
    in Hnd.
  apply NoDup_app in Hnd as (Hnd3 & Hdis & _).
  assert (Hnin : CS_ENUMF_ "chemistry" ∉ [CS_ENUMF_ "pot_t"; CS_ENUMF_ "ym_w"; CS_ENUMF_ "ntdrp"]).
  { intros Hin. apply (Hdis _ Hin). constructor. }
  apply Forall_cons in Hlt as [H1 Hlt]. apply Forall_cons in Hlt as [H2 Hlt].
  apply Forall_cons in Hlt as [H3 Hlt]. apply Forall_cons in Hlt as [Hch _].
  destruct (map_list_spec (map_atmospheric_list cs_field_by_name_try CS_ENUMF_) st1 Hb1
              ltac:(repeat constructor; cbn; assumption) Hnd3)
    as (st3 & Hm3 & Hb3 & Hs3 & Hall3 & Hfr3).
  specialize (Hs3 (or_introl Hs1)).
  (* slot [chemistry] before the loop *)
  destruct (lookup_lt_is_Some_2 fp (CS_ENUMF_ "chemistry") ltac:(lia)) as [s Hs].
  destruct (lookup_lt_is_Some_2 ss (CS_ENUMF_ "chemistry") ltac:(lia)) as [sz Hsz].
  assert (Hsz1 : (sz <= 1)%Z).
  { destruct (_field_pointer st) eqn:Hst.
    - assert (st1 = st) as -> by (apply Hsame; congruence).
      apply (Hchem s sz). unfold slot_at. by rewrite Hfp, Hss, Hs, Hsz.
    - rewrite ensure_init_eq, Hst in Hinit. inversion Hinit; subst st1.
      cbn in Hss. inversion Hss; subst ss.
      assert (sz = 0%Z) as -> by (eapply repeat_spec; apply list_elem_of_In;
                                    eapply list_elem_of_lookup_2; eassumption).
      lia. }
  assert (Hat3 : slot_at st3 (CS_ENUMF_ "chemistry") = Some (s, sz)).
  { rewrite (proj1 (Hfr3 Hs1 _ Hnin)). unfold slot_at. by rewrite Hfp, Hss, Hs, Hsz. }
  destruct (Z.to_nat n_chem_species) as [|k] eqn:Hk; [lia|].
  destruct (lookup_lt_is_Some_2 species_f_id 0 ltac:(lia)) as [id0 Hid0].
  destruct (atmo_first species_f_id st3 s sz id0 Hb3 Hs3 Hch Hat3 Hsz1 Hid0)
    as (st4 & Hm4 & Hb4 & Hs4 & Hinv4 & Hfr4).
  destruct (atmo_loop species_f_id k 1%Z st4 Hb4 Hs4 Hch ltac:(lia) ltac:(lia)
              ltac:(cbn; lia) Hinv4)
    as (st' & Hm & Hb' & Hs' & (sc & Hatc & _ & Hget) & Hfr).
  replace (1 + Z.of_nat k)%Z with n_chem_species in Hatc, Hget by lia.
  assert (Hl3 : forall e x, (e, x) ∈ map_atmospheric_list cs_field_by_name_try CS_ENUMF_ ->
            cs_field_pointer_lookup st' e 0 = Ok (Def x)).
  { intros e x Hin. rewrite Forall_forall in Hall3. specialize (Hall3 _ Hin).
    cbn in Hall3. rewrite Hfr, Hfr4; [exact Hall3| |];
      intros ->; apply Hnin; apply (list_elem_of_fmap_2 fst) in Hin;
      exact Hin. }
  exists st'. split.
  { rewrite map_atmospheric_split, (map_list_after_init _ st st1) by (done || discriminate).
    rewrite Hm3, bind_Ok_l, Hk. cbn [atmo_species_loop].
    rewrite (arr_get_in_bounds species_f_id 0 id0) by (lia || done).
    rewrite bind_Ok_l, Hm4, bind_Ok_l. exact Hm. }
  split; [done|].
  split; [apply Hl3; cbn; left|].
  split; [apply Hl3; cbn; right; left|].
  split; [apply Hl3; cbn; right; right; left|].
  split; [exists sc; exact Hatc|].
  intros i id Hi Hid.
  rewrite (lookup_slot st' _ sc n_chem_species i (bounded_glob st' Hb' Hs') Hatc).
  apply Hget; done.
Qed.

End MappingProofs.

(** Decides a closed decidable proposition by evaluation. *)
Ltac decide_closed := apply (bool_decide_unpack _); vm_compute; reflexivity.

(** Witness of X10: eleven enumerators, the ten of [map_base] numbered in
    the order of the source. *)
Lemma map_base_lookups_witness :
  exists st', cs_field_pointer_map_base 11
      (fun name => N.of_nat (String.length name))
      (fun name =>
         if String.eqb name "dt" then 0%nat
         else if String.eqb name "hybrid_blend" then 1%nat
         else if String.eqb name "h" then 2%nat
         else if String.eqb name "t" then 3%nat
         else if String.eqb name "cp" then 4%nat
         else if String.eqb name "lambda" then 5%nat
         else if String.eqb name "th_diff" then 6%nat
         else if String.eqb name "vism" then 7%nat
         else if String.eqb name "poro" then 8%nat
         else if String.eqb name "t_poro" then 9%nat
         else 10%nat) initial_state = Ok st' /\
    cs_field_pointer_lookup st' 3 0 = Ok (Def 11%N).
Proof.
  destruct (map_base_lookups 11
      (fun name => N.of_nat (String.length name))
      (fun name =>
         if String.eqb name "dt" then 0%nat
         else if String.eqb name "hybrid_blend" then 1%nat
         else if String.eqb name "h" then 2%nat
         else if String.eqb name "t" then 3%nat
         else if String.eqb name "cp" then 4%nat
         else if String.eqb name "lambda" then 5%nat
         else if String.eqb name "th_diff" then 6%nat
         else if String.eqb name "vism" then 7%nat
         else if String.eqb name "poro" then 8%nat
         else if String.eqb name "t_poro" then 9%nat
         else 10%nat) initial_state
      ltac:(constructor) ltac:(decide_closed) ltac:(decide_closed))
    as (st' & Hm & _ & Hall & _).
  exists st'. split; [exact Hm|].
  rewrite Forall_forall in Hall. apply (Hall (3%nat, 11%N)). decide_closed.
Defined.

(** Witness of X11: [t_b] numbered 10 of eleven. *)
Lemma map_boundary_lookup_witness :
  exists st', cs_field_pointer_map_boundary 11
      (fun name => N.of_nat (String.length name))
      (fun name => if String.eqb name "t_b" then 10%nat else 0%nat)
      initial_state = Ok st' /\
    cs_field_pointer_lookup st' 10 0 = Ok (Def 20%N).
Proof.
  destruct (map_boundary_lookup 11
      (fun name => N.of_nat (String.length name))
      (fun name => if String.eqb name "t_b" then 10%nat else 0%nat)
      initial_state ltac:(constructor) ltac:(decide_closed))
    as (st' & Hm & _ & Hl & _).
  exists st'. split; [exact Hm|exact Hl].
Defined.

(** Witness of X12: four enumerators, three species with ids 11, 12, 13. *)
Lemma map_atmospheric_species_witness :
  exists st', cs_field_pointer_map_atmospheric 4
      (fun name => N.of_nat (String.length name)) Z.to_N
      (fun name =>
         if String.eqb name "pot_t" then 0%nat
         else if String.eqb name "ym_w" then 1%nat
         else if String.eqb name "ntdrp" then 2%nat
         else 3%nat)
      3 [11%Z; 12%Z; 13%Z] initial_state = Ok st' /\
    cs_field_pointer_lookup st' 3 2 = Ok (Def 13%N).
Proof.
  destruct (map_atmospheric_species 4
      (fun name => N.of_nat (String.length name)) Z.to_N
      (fun name =>
         if String.eqb name "pot_t" then 0%nat
         else if String.eqb name "ym_w" then 1%nat
         else if String.eqb name "ntdrp" then 2%nat
         else 3%nat)
      3 [11%Z; 12%Z; 13%Z] initial_state
      ltac:(constructor) ltac:(decide_closed) ltac:(decide_closed)
      ltac:(intros ? ? H; discriminate H) ltac:(lia) ltac:(cbn; lia))
    as (st' & Hm & _ & _ & _ & _ & _ & Hl).
  exists st'. split; [exact Hm|].
  apply (Hl 2%Z 13%Z); [lia|reflexivity].
Defined.

End FieldPointer.
